(** * Status effects on the token HUD (scripts/status-effects.js)

    A shallow embedding of the [StatusEffects] class: the catalog
    initialiser, the effect fetcher, the toggle interceptor, the choice-list
    builder and the icon refresher, followed by the properties proved of
    them. *)

From Stdlib Require Import ZArith String Ascii Sorting.Permutation Sorting.Sorted.
From Stdlib Require OrderedTypeEx.
From stdpp Require Import gmap strings list fin_maps pretty.

Local Open Scope string_scope.
#[local] Set Warnings "-register-all".

(** ** JavaScript values *)

(** The fragment of JavaScript values the class manipulates.  Numbers are
    integers; an object is the finite map of its own properties (property
    order is not observable here); the names every plain object inherits
    are listed in [objectPrototype] below.  A string is the sequence of its
    UTF-8 bytes. *)
Inductive value : Type :=
  | VUndefined
  | VNull
  | VBool (b : bool)
  | VNum (n : Z)
  | VStr (s : string)
  | VObj (o : gmap string value).

(** What a statement does when it finishes: normally, or with a [TypeError]
    raised by a property access or a method call on a value without it. *)
Inductive completion (A : Type) : Type :=
  | Normal (a : A)
  | Throw.
Arguments Normal {A} a.
Arguments Throw {A}.

#[export] Instance completion_ret : MRet completion := @Normal.
#[export] Instance completion_bind : MBind completion :=
  λ A B f c, match c with Normal a => f a | Throw => Throw end.

(** [!!v] *)
Definition truthy (v : value) : bool :=
  match v with
  | VUndefined | VNull => false
  | VBool b => b
  | VNum n => negb (n =? 0)%Z
  | VStr s => negb (String.eqb s "")
  | VObj _ => true
  end.

(** [v == null] *)
Definition nullish (v : value) : bool :=
  match v with
  | VUndefined | VNull => true
  | _ => false
  end.

(** [a ?? b] *)
Definition coalesce (a b : value) : value := if nullish a then b else a.

(** [v.k] or [v[k]]: a [TypeError] on [undefined] and [null], [undefined] for
    a property the value does not have.  The properties read in this file
    ([currentTarget], [dataset], [statusId], [overlay], [id], [icon], [name])
    are not properties of a primitive. *)
Definition get_prop (v : value) (k : string) : completion value :=
  match v with
  | VUndefined | VNull => Throw
  | VObj o => Normal (default VUndefined (o !! k))
  | _ => Normal VUndefined
  end.

(** [v?.k] *)
Definition get_prop_opt (v : value) (k : string) : value :=
  match get_prop v k with
  | Normal x => x
  | Throw => VUndefined
  end.

(** The property key a value is converted to when it indexes an object
    ([obj[v]], [v in obj]); integers print in decimal. *)
Definition to_key (v : value) : string :=
  match v with
  | VUndefined => "undefined"
  | VNull => "null"
  | VBool true => "true"
  | VBool false => "false"
  | VNum n => pretty n
  | VStr s => s
  | VObj _ => "[object Object]"
  end.

(** [args[i]] *)
Definition arg (args : list value) (i : nat) : value :=
  default VUndefined (args !! i).

(** [s.startsWith(p)] *)
Definition startsWith (s p : string) : bool := String.prefix p s.

(** [s.replace(pat, rep)] for a string pattern [pat] and a replacement
    without [$]: the first occurrence of [pat] is replaced. *)
Definition replace (s pat rep : string) : string :=
  match String.index 0 pat s with
  | Some i =>
      String.substring 0 i s ++ rep
        ++ String.substring (i + String.length pat)
             (String.length s - (i + String.length pat)) s
  | None => s
  end.

(** The names a plain object ([{}]) inherits from [Object.prototype]. *)
Definition objectPrototype : list string :=
  ["constructor"; "__defineGetter__"; "__defineSetter__"; "hasOwnProperty";
   "__lookupGetter__"; "__lookupSetter__"; "isPrototypeOf";
   "propertyIsEnumerable"; "toString"; "valueOf"; "__proto__";
   "toLocaleString"].

(** [k in obj] for a plain object with the own properties [obj]: true of
    an own property and of an inherited name. *)
Definition hasProperty {A} (obj : gmap string A) (k : string) : bool :=
  bool_decide (is_Some (obj !! k)) || bool_decide (k ∈ objectPrototype).

(** Foundry's [Array.prototype.filterJoin(sep)]: the truthy elements joined
    by [sep]; [None] stands for [null]. *)
Fixpoint join (sep : string) (l : list string) : string :=
  match l with
  | [] => ""
  | [x] => x
  | x :: l' => x ++ sep ++ join sep l'
  end.

Definition filterJoin (l : list (option string)) (sep : string) : string :=
  join sep (omap (λ o, match o with
                       | Some s => if String.eqb s "" then None else Some s
                       | None => None
                       end) l).

(** ** The host's objects *)

(** An active effect of an actor: [effect.statuses] in iteration order and
    [effect.getFlag('core', 'overlay')]. *)
Module ActiveEffect.
Record t := { statuses : list string; overlayFlag : value }.
End ActiveEffect.

Module Actor.
Record t := { uuid : string; effects : list ActiveEffect.t }.
End Actor.

(** [token.document]: the icon paths in [effects], and [overlayEffect]
    ([None] when it is [null] or [undefined]). *)
Module TokenDocument.
Record t := { effects : list string; overlayEffect : option string }.
End TokenDocument.

(** [token.actor] is [None] when the token has no actor. *)
Module Token.
Record t := { actor : option Actor.t; document : TokenDocument.t }.
End Token.

(** What [findEffectByName] returns: [effect.name] and [effect.toObject()]. *)
Module EffectLike.
Record t := { name : string; toObject : gmap string value }.
End EffectLike.

Module Settings.
Record t := {
  modifyStatusEffects : string;
  statusEffectNames : list string;
  statusEffectsSortOrder : string
}.
End Settings.

(** ** onToggleEffect *)

(** The calls [onToggleEffect] makes on its collaborators, in order. *)
Inductive action : Type :=
  | PreventDefault
  | StopPropagation
  | ToggleEffect (effectName : string) (overlay : value) (uuids : list string)
  | CallWrapper (args : list value).

(** [args.length > 1 && args[1]?.overlay] *)
Definition overlayOption (args : list value) : value :=
  if (1 <? length args)%nat then get_prop_opt (arg args 1) "overlay"
  else VBool false.

(** [event.currentTarget.dataset.statusId] *)
Definition statusIdOf (event : value) : completion value :=
  currentTarget ← get_prop event "currentTarget";
  dataset ← get_prop currentTarget "dataset";
  get_prop dataset "statusId".

Definition onToggleEffect (token : Token.t) (args : list value)
  : list action * completion unit :=
  let event := arg args 0 in
  match statusIdOf event with
  | Normal (VStr statusEffectId) =>
      if startsWith statusEffectId "Convenient Effect: " then
        let effectName := replace statusEffectId "Convenient Effect: " "" in
        let overlay := overlayOption args in
        match Token.actor token with
        | Some actor =>
            ([PreventDefault; StopPropagation;
              ToggleEffect effectName overlay [Actor.uuid actor]], Normal ())
        | None => ([PreventDefault; StopPropagation], Throw)
        end
      else ([CallWrapper args], Normal ())
  | _ => ([], Throw)
  end.

(** ** getStatusEffectChoices *)

(** The per-status record built from the actor's effects, [{ id, overlay }]. *)
Module StatusRecord.
Record t := { id : string; overlay : bool }.
End StatusRecord.

(** An entry of the mapping returned to the HUD. *)
Module StatusChoice.
Record t := {
  id : value;
  title : option string;
  src : value;
  isActive : bool;
  isOverlay : bool;
  cssClass : string
}.
End StatusChoice.

(** The body of the reducer over [actor.effects]: every status id of the
    effect is (re)assigned the record of this effect. *)
Definition recordStatuses (obj : gmap string StatusRecord.t)
    (effect : ActiveEffect.t) : gmap string StatusRecord.t :=
  foldl (λ obj id,
           <[id := {| StatusRecord.id := id;
                      StatusRecord.overlay :=
                        truthy (ActiveEffect.overlayFlag effect) |}]> obj)
        obj (ActiveEffect.statuses effect).

Definition actorStatuses (actor : option Actor.t)
  : gmap string StatusRecord.t :=
  match actor with
  | Some a => foldl recordStatuses ∅ (Actor.effects a)
  | None => ∅
  end.

(** An element of [CONFIG.statusEffects.concat(tokenEffects)]: an effect
    definition of the catalog, or an icon path of the token document. *)
Inductive candidate : Type :=
  | Effect (o : gmap string value)
  | Icon (path : string).

Definition candidate_value (e : candidate) : value :=
  match e with
  | Effect o => VObj o
  | Icon path => VStr path
  end.

(** [e.k] for a candidate [e]. *)
Definition field (e : candidate) (k : string) : value :=
  get_prop_opt (candidate_value e) k.

(** [doc.effects.includes(src)] *)
Definition includes (l : list string) (src : value) : bool :=
  match src with
  | VStr s => bool_decide (s ∈ l)
  | _ => false
  end.

(** [doc.overlayEffect === src] *)
Definition overlayEffectIs (overlayEffect : option string) (src : value)
  : bool :=
  match overlayEffect, src with
  | Some o, VStr s => String.eqb o s
  | _, _ => false
  end.

(** [deepClone(doc.effects) || []], then the overlay effect pushed when it
    is truthy. *)
Definition tokenEffects (doc : TokenDocument.t) : list string :=
  TokenDocument.effects doc ++
  match TokenDocument.overlayEffect doc with
  | Some o => if truthy (VStr o) then [o] else []
  | None => []
  end.

Section Host.

(** The collaborators that are not part of this file: the id helper
    ([EffectHelpers.getId]), the effect lookup of the effect interface
    ([None] for [undefined]) and the localisation service; and two
    primitives of the language on strings, [s.toLowerCase()] and [a < b]
    (the order of the UTF-16 code units). *)
Variable getId : string → string.
Variable findEffectByName : string → option EffectLike.t.
Variable localize : value → string.
Variable toLowerCase : string → string.
Variable lessThan : string → string → bool.

(** The body of the reducer over the candidates. *)
Definition addChoice (doc : TokenDocument.t)
    (statuses : gmap string StatusRecord.t)
    (obj : gmap string StatusChoice.t) (e : candidate)
  : gmap string StatusChoice.t :=
  let id := field e "id" in
  let src := coalesce (field e "icon") (candidate_value e) in
  if hasProperty obj (to_key id) then obj else
  let status := statuses !! to_key (field e "id") in
  let isActive :=
    truthy (from_option (λ r, VStr (StatusRecord.id r)) VUndefined status)
    || includes (TokenDocument.effects doc) src in
  let isOverlay :=
    from_option StatusRecord.overlay false status
    || overlayEffectIs (TokenDocument.overlayEffect doc) src in
  <[to_key id :=
      {| StatusChoice.id := coalesce (field e "id") (VStr "");
         StatusChoice.title :=
           if truthy (field e "name") then Some (localize (field e "name"))
           else None;
         StatusChoice.src := src;
         StatusChoice.isActive := isActive;
         StatusChoice.isOverlay := isOverlay;
         StatusChoice.cssClass :=
           filterJoin [if isActive then Some "active" else None;
                       if isOverlay then Some "overlay" else None] " " |}]>
    obj.

(** [CONFIG.statusEffects.concat(tokenEffects)] *)
Definition candidates (catalog : list (gmap string value))
    (doc : TokenDocument.t) : list candidate :=
  (Effect <$> catalog) ++ (Icon <$> tokenEffects doc).

Definition getStatusEffectChoices (settings : Settings.t)
    (catalog : list (gmap string value)) (token : Token.t)
    (wrapper : list value → gmap string StatusChoice.t)
    (args : list value) : gmap string StatusChoice.t :=
  if String.eqb (Settings.modifyStatusEffects settings) "none" then
    wrapper args
  else
    let doc := Token.document token in
    let statuses := actorStatuses (Token.actor token) in
    foldl (addChoice doc statuses) ∅ (candidates catalog doc).

(** ** _fetchStatusEffects and initialize *)

(** [a.name.toLowerCase()] *)
Definition lowerName (a : gmap string value) : completion string :=
  match a !! "name" with
  | Some (VStr s) => Normal (toLowerCase s)
  | _ => Throw
  end.

(** The comparison function handed to [sort]. *)
Definition compareNames (a b : gmap string value) : completion Z :=
  nameA ← lowerName a;
  nameB ← lowerName b;
  if lessThan nameA nameB then Normal (-1)%Z
  else if lessThan nameB nameA then Normal 1%Z
  else Normal 0%Z.

(** [Array.prototype.sort(cmp)]: a stable sort, here by insertion from the
    right; an element moves behind those the comparison function puts it
    after ([cmp x y > 0]), and a comparison that throws aborts the sort.
    Every element of a list of two or more is compared at least once. *)
Fixpoint insertSorted {A} (cmp : A → A → completion Z) (x : A)
    (l : list A) : completion (list A) :=
  match l with
  | [] => Normal [x]
  | y :: l' =>
      c ← cmp x y;
      if (0 <? c)%Z then r ← insertSorted cmp x l'; Normal (y :: r)
      else Normal (x :: y :: l')
  end.

Fixpoint sort {A} (cmp : A → A → completion Z) (l : list A)
  : completion (list A) :=
  match l with
  | [] => Normal []
  | x :: l' => s ← sort cmp l'; insertSorted cmp x s
  end.

(** [{ id: getId(effect.name), ...effect.toObject() }]: the properties
    of the serialised effect are copied over the [id] written first, so on
    a common key the serialised value stays (the union keeps its left
    operand there). *)
Definition effectDefinition (effect : EffectLike.t) : gmap string value :=
  EffectLike.toObject effect
    ∪ {[ "id" := VStr (getId (EffectLike.name effect)) ]}.

Definition _fetchStatusEffects (settings : Settings.t)
  : completion (list (gmap string value)) :=
  let statusEffects :=
    effectDefinition
      <$> omap findEffectByName (Settings.statusEffectNames settings) in
  if String.eqb (Settings.statusEffectsSortOrder settings) "alphabetical"
  then sort compareNames statusEffects
  else Normal statusEffects.

(** [initialize] as a function of [CONFIG.statusEffects]. *)
Definition initialize (settings : Settings.t)
    (catalog : list (gmap string value))
  : completion (list (gmap string value)) :=
  let modifyStatusEffects := Settings.modifyStatusEffects settings in
  if String.eqb modifyStatusEffects "replace" then
    _fetchStatusEffects settings
  else if String.eqb modifyStatusEffects "add" then
    fetched ← _fetchStatusEffects settings; Normal (catalog ++ fetched)%list
  else Normal catalog.

End Host.

(** ** refreshStatusIcons *)

(** An [img] of the status-effect container: [img.dataset.statusId]
    ([None] when the attribute is absent), its [src] attribute and
    [img.classList]. *)
Module Img.
Record t := {
  statusId : option string;
  src : string;
  classList : gset string
}.
End Img.

(** [classList.toggle(token, force)] *)
Definition toggle (classList : gset string) (token : string) (force : bool)
  : gset string :=
  if force then classList ∪ {[ token ]} else classList ∖ {[ token ]}.

(** The HUD: the children of [element.find('.status-effects')[0]] ([None]
    when there is no such element) and what [_getStatusEffectChoices()]
    returns. *)
Module TokenHUD.
Record t := {
  statusEffects : option (list Img.t);
  choices : gmap string StatusChoice.t
}.
End TokenHUD.

Definition refreshIcon (statuses : gmap string StatusChoice.t) (img : Img.t)
  : Img.t :=
  let status :=
    statuses !! to_key (from_option VStr VUndefined (Img.statusId img)) in
  let classes :=
    toggle (Img.classList img) "overlay"
           (from_option StatusChoice.isOverlay false status) in
  {| Img.statusId := Img.statusId img;
     Img.src := Img.src img;
     Img.classList :=
       toggle classes "active"
              (from_option StatusChoice.isActive false status) |}.

(** The children of the container after the loop. *)
Definition refreshStatusIcons (tokenHud : TokenHUD.t)
  : completion (list Img.t) :=
  let statuses := TokenHUD.choices tokenHud in
  match TokenHUD.statusEffects tokenHud with
  | Some children => Normal (refreshIcon statuses <$> children)
  | None => Throw
  end.

(** ** Notions used to state the properties *)

(** The key under which a candidate is looked up and stored: the property
    key of [e.id]. *)
Definition keyOf (e : candidate) : string := to_key (field e "id").

(** The icon reference of a candidate, [e.icon ?? e]. *)
Definition srcOf (e : candidate) : value :=
  coalesce (field e "icon") (candidate_value e).

(** The entry the reducer writes for a candidate that is not yet in the
    mapping. *)
Definition choiceOf (localize : value → string) (doc : TokenDocument.t)
    (statuses : gmap string StatusRecord.t) (e : candidate)
  : StatusChoice.t :=
  let status := statuses !! keyOf e in
  let isActive :=
    truthy (from_option (λ r, VStr (StatusRecord.id r)) VUndefined status)
    || includes (TokenDocument.effects doc) (srcOf e) in
  let isOverlay :=
    from_option StatusRecord.overlay false status
    || overlayEffectIs (TokenDocument.overlayEffect doc) (srcOf e) in
  {| StatusChoice.id := coalesce (field e "id") (VStr "");
     StatusChoice.title :=
       if truthy (field e "name") then Some (localize (field e "name"))
       else None;
     StatusChoice.src := srcOf e;
     StatusChoice.isActive := isActive;
     StatusChoice.isOverlay := isOverlay;
     StatusChoice.cssClass :=
       filterJoin [if isActive then Some "active" else None;
                   if isOverlay then Some "overlay" else None] " " |}.

(** The actor has an active effect that declares the status [k]. *)
Definition declares (actor : option Actor.t) (k : string) : Prop :=
  ∃ a effect, actor = Some a ∧ effect ∈ Actor.effects a
              ∧ k ∈ ActiveEffect.statuses effect.

(** The effects the fetcher resolves, in lookup order, and their
    definitions. *)
Definition resolved (findEffectByName : string → option EffectLike.t)
    (settings : Settings.t) : list EffectLike.t :=
  omap findEffectByName (Settings.statusEffectNames settings).

(** The [id] property of a catalog entry. *)
Definition idOf (d : gmap string value) : value :=
  default VUndefined (d !! "id").

(** The serialised effect has a string [name]. *)
Definition named (d : gmap string value) : Prop :=
  ∃ s, d !! "name" = Some (VStr s).

(** The name of a serialised effect ([""] when it has no string name). *)
Definition nameOf (d : gmap string value) : string :=
  match d !! "name" with
  | Some (VStr s) => s
  | _ => ""
  end.

(** The key the alphabetical order compares: the lower-cased name. *)
Definition sortKey (toLowerCase : string → string) (d : gmap string value)
  : string :=
  toLowerCase (nameOf d).

(** What is known of [<] on strings: a strict total order. *)
Record strictTotal (lessThan : string → string → bool) : Prop := {
  lessThan_irrefl : ∀ a, lessThan a a = false;
  lessThan_trans :
    ∀ a b c, lessThan a b = true → lessThan b c = true → lessThan a c = true;
  lessThan_total : ∀ a b, lessThan a b = true ∨ a = b ∨ lessThan b a = true
}.

(** [a <= b] for the order [lessThan]. *)
Definition str_le (lessThan : string → string → bool) (a b : string) : Prop :=
  lessThan b a = false.

(** The alphabetical order on catalog entries. *)
Definition key_le (toLowerCase : string → string)
    (lessThan : string → string → bool) (a b : gmap string value) : Prop :=
  str_le lessThan (sortKey toLowerCase a) (sortKey toLowerCase b).

(** ASCII text, on which the two primitives are known in closed form:
    [toLowerCase] lowers the letters [A] to [Z] and keeps the rest, and [<]
    compares byte by byte. *)
Definition isAscii (s : string) : Prop :=
  Forall (λ c, (nat_of_ascii c < 128)%nat) (list_ascii_of_string s).

Definition lowerAsciiChar (c : ascii) : ascii :=
  let n := nat_of_ascii c in
  if (65 <=? n)%nat && (n <=? 90)%nat then ascii_of_nat (n + 32) else c.

Fixpoint lowerAscii (s : string) : string :=
  match s with
  | EmptyString => EmptyString
  | String c s' => String (lowerAsciiChar c) (lowerAscii s')
  end.

(** The primitives agree with their closed forms on ASCII text. *)
Definition asciiPrimitives (toLowerCase : string → string)
    (lessThan : string → string → bool) : Prop :=
  (∀ s, isAscii s → toLowerCase s = lowerAscii s)
  ∧ (∀ a b, isAscii a → isAscii b → lessThan a b = String.ltb a b).

(** ** Sample data *)

Module Sample.

Definition getId (name : string) : string := "Convenient Effect: " ++ name.

Definition effect (name icon : string) : EffectLike.t :=
  {| EffectLike.name := name;
     EffectLike.toObject :=
       {[ "name" := VStr name; "icon" := VStr icon ]} |}.

(** An effect whose serialised fields carry an [id] of their own. *)
Definition effectWithId : EffectLike.t :=
  {| EffectLike.name := "Custom";
     EffectLike.toObject :=
       {[ "name" := VStr "Custom"; "id" := VStr "own-id" ]} |}.

Definition findEffectByName (name : string) : option EffectLike.t :=
  if String.eqb name "Blinded" then Some (effect "Blinded" "blind.svg")
  else if String.eqb name "Ablaze" then Some (effect "Ablaze" "fire.svg")
  else if String.eqb name "Custom" then Some effectWithId
  else None.

Definition localize (key : value) : string := to_key key.

(** A finder that resolves every name. *)
Definition findAny (name : string) : option EffectLike.t :=
  Some (effect name "icon.svg").

(** The two string primitives on ASCII text. *)
Definition toLowerCase (s : string) : string := lowerAscii s.

Definition lessThan (a b : string) : bool := String.ltb a b.

Definition settings (mode : string) (names : list string)
    (order : string) : Settings.t :=
  {| Settings.modifyStatusEffects := mode;
     Settings.statusEffectNames := names;
     Settings.statusEffectsSortOrder := order |}.

(** A ["click"] event on the icon of the status [statusId]. *)
Definition event (statusId : string) : value :=
  VObj {[ "currentTarget" :=
            VObj {[ "dataset" := VObj {[ "statusId" := VStr statusId ]} ]} ]}.

Definition actor (effects : list ActiveEffect.t) : Actor.t :=
  {| Actor.uuid := "Actor.abc"; Actor.effects := effects |}.

Definition status (ids : list string) (overlay : value) : ActiveEffect.t :=
  {| ActiveEffect.statuses := ids; ActiveEffect.overlayFlag := overlay |}.

Definition token (effects : list ActiveEffect.t) (icons : list string)
    (overlayEffect : option string) : Token.t :=
  {| Token.actor := Some (actor effects);
     Token.document :=
       {| TokenDocument.effects := icons;
          TokenDocument.overlayEffect := overlayEffect |} |}.

(** The host's default entry for a status. *)
Definition entry (id icon : string) : gmap string value :=
  {[ "id" := VStr id; "icon" := VStr icon ]}.

Definition img (statusId : option string) (src : string)
    (classes : list string) : Img.t :=
  {| Img.statusId := statusId;
     Img.src := src;
     Img.classList := list_to_set classes |}.

Definition choice (id : string) (isActive isOverlay : bool)
  : StatusChoice.t :=
  {| StatusChoice.id := VStr id;
     StatusChoice.title := None;
     StatusChoice.src := VStr "icon.svg";
     StatusChoice.isActive := isActive;
     StatusChoice.isOverlay := isOverlay;
     StatusChoice.cssClass := "" |}.

End Sample.

(** * Properties *)

(** ** Strings *)

Lemma prefix_append (p r : string) : String.prefix p (p ++ r) = true.
Proof.
  induction p as [|c p IH]; simpl.
  - by destruct r.
  - destruct (ascii_dec c c); [exact IH | congruence].
Qed.

Lemma prefix_split (p s : string) :
  String.prefix p s = true → ∃ r, s = p ++ r.
Proof.
  revert s; induction p as [|c p IH]; intros s H.
  - by exists s.
  - destruct s as [|d s]; simpl in H; [discriminate|].
    destruct (ascii_dec c d) as [->|]; [|discriminate].
    destruct (IH _ H) as [r ->]. by exists r.
Qed.

Lemma index_prefix (p s : string) :
  String.prefix p s = true → String.index 0 p s = Some 0.
Proof.
  destruct s as [|d s]; simpl.
  - by destruct p.
  - by intros ->.
Qed.

Lemma substring_all (s : string) :
  String.substring 0 (String.length s) s = s.
Proof. induction s as [|c s IH]; simpl; [done | by rewrite IH]. Qed.

Lemma substring_append (p r : string) :
  String.substring (String.length p)
    (String.length (p ++ r) - String.length p) (p ++ r) = r.
Proof.
  induction p as [|c p IH]; simpl.
  - rewrite Nat.sub_0_r. apply substring_all.
  - exact IH.
Qed.

Lemma substring_zero (s : string) : String.substring 0 0 s = "".
Proof. by destruct s. Qed.

(** Replacing a prefix by the empty string leaves the rest. *)
Lemma replace_prefix (p r : string) : replace (p ++ r) p "" = r.
Proof.
  unfold replace. rewrite (index_prefix _ _ (prefix_append p r)).
  rewrite substring_zero. simpl. apply substring_append.
Qed.

(** ** The toggle interceptor *)

Lemma overlayOption_true (args : list value) :
  overlayOption args = VBool true →
  ∃ event second rest o,
    args = event :: VObj o :: rest ∧ second = VObj o
    ∧ o !! "overlay" = Some (VBool true).
Proof.
  unfold overlayOption, arg.
  destruct args as [|event [|second rest]]; simpl; try discriminate.
  unfold get_prop_opt, get_prop.
  destruct second as [| | | | |o]; try discriminate.
  intros H. exists event, (VObj o), rest, o. split_and!; try done.
  destruct (o !! "overlay") as [v|]; simpl in H; [by subst | discriminate].
Qed.

(** C1: when the status id read from the event's element starts with
    ["Convenient Effect: "], the event's default action and propagation are
    suppressed and [toggleEffect] is called with the id stripped of the
    prefix, the overlay option (which is [true] only when a second argument
    with [overlay: true] was passed) and the uuid of the token's actor as
    the only target, the wrapper not being called; when the id does not
    start with the prefix, the wrapper is called with the arguments as they
    were received and nothing else is done. *)
Theorem onToggleEffect_dispatch (token : Token.t) (args : list value)
    (statusEffectId : string)
    (Hid : statusIdOf (arg args 0) = Normal (VStr statusEffectId)) :
  (startsWith statusEffectId "Convenient Effect: " = true →
   ∀ actor, Token.actor token = Some actor →
   ∃ effectName,
     statusEffectId = "Convenient Effect: " ++ effectName
     ∧ onToggleEffect token args =
         ([PreventDefault; StopPropagation;
           ToggleEffect effectName (overlayOption args) [Actor.uuid actor]],
          Normal ())
     ∧ (overlayOption args = VBool true →
        ∃ event o rest,
          args = event :: VObj o :: rest
          ∧ o !! "overlay" = Some (VBool true)))
  ∧ (startsWith statusEffectId "Convenient Effect: " = false →
     onToggleEffect token args = ([CallWrapper args], Normal ())).
Proof.
  split.
  - intros Hpre actor Hactor.
    destruct (prefix_split _ _ Hpre) as [effectName Heq].
    exists effectName. split; [exact Heq|]. split.
    + unfold onToggleEffect. rewrite Hid, Hpre, Hactor.
      by rewrite Heq, replace_prefix.
    + intros Hov.
      destruct (overlayOption_true _ Hov) as (event & _ & rest & o & ? & _ & ?).
      by exists event, o, rest.
  - intros Hpre. unfold onToggleEffect. by rewrite Hid, Hpre.
Qed.

Lemma onToggleEffect_dispatch_witness :
  onToggleEffect (Sample.token [] [] None)
    [Sample.event "Convenient Effect: Blinded";
     VObj {[ "overlay" := VBool true ]}]
  = ([PreventDefault; StopPropagation;
      ToggleEffect "Blinded" (VBool true) ["Actor.abc"]], Normal ())
  ∧ onToggleEffect (Sample.token [] [] None) [Sample.event "dead"]
    = ([CallWrapper [Sample.event "dead"]], Normal ()).
Proof.
  split.
  - destruct (onToggleEffect_dispatch (Sample.token [] [] None)
                [Sample.event "Convenient Effect: Blinded";
                 VObj {[ "overlay" := VBool true ]}]
                "Convenient Effect: Blinded") as [H _]; [by vm_compute|].
    destruct (H eq_refl (Sample.actor []) eq_refl) as (name & Hname & Hrun & _).
    cbv [String.append] in Hname. injection Hname as <-. exact Hrun.
  - apply (onToggleEffect_dispatch (Sample.token [] [] None)
             [Sample.event "dead"] "dead"); by vm_compute.
Defined.

(** ** The statuses of the actor *)

Lemma recordStatuses_lookup (obj : gmap string StatusRecord.t)
    (effect : ActiveEffect.t) (k : string) :
  recordStatuses obj effect !! k =
    if bool_decide (k ∈ ActiveEffect.statuses effect)
    then Some {| StatusRecord.id := k;
                 StatusRecord.overlay :=
                   truthy (ActiveEffect.overlayFlag effect) |}
    else obj !! k.
Proof.
  unfold recordStatuses.
  revert obj. induction (ActiveEffect.statuses effect) as [|i l IH]; intros obj.
  - done.
  - simpl. rewrite IH. destruct (decide (k ∈ l)) as [Hin|Hin].
    + rewrite !bool_decide_eq_true_2; [done | by right | done].
    + rewrite (bool_decide_eq_false_2 _ Hin).
      destruct (decide (k = i)) as [->|Hne].
      * rewrite lookup_insert_eq. rewrite bool_decide_eq_true_2; [done | by left].
      * rewrite lookup_insert_ne by done.
        rewrite bool_decide_eq_false_2; [done|].
        by intros [?|?]%elem_of_cons.
Qed.

Lemma foldl_recordStatuses_none (obj : gmap string StatusRecord.t)
    (l : list ActiveEffect.t) (k : string) :
  (∀ effect, effect ∈ l → k ∉ ActiveEffect.statuses effect) →
  foldl recordStatuses obj l !! k = obj !! k.
Proof.
  revert obj. induction l as [|e l IH]; intros obj H; [done|].
  simpl. rewrite IH by (intros; apply H; by right).
  rewrite recordStatuses_lookup, bool_decide_eq_false_2; [done|].
  apply H. by left.
Qed.

(** Every record is stored under its own id. *)
Lemma foldl_recordStatuses_id (obj : gmap string StatusRecord.t)
    (l : list ActiveEffect.t) :
  (∀ k r, obj !! k = Some r → StatusRecord.id r = k) →
  ∀ k r, foldl recordStatuses obj l !! k = Some r → StatusRecord.id r = k.
Proof.
  revert obj. induction l as [|e l IH]; intros obj H; [exact H|].
  simpl. apply IH. intros k r. rewrite recordStatuses_lookup.
  case_bool_decide; [by intros [= <-] | apply H].
Qed.

Lemma actorStatuses_id (actor : option Actor.t) (k : string)
    (r : StatusRecord.t) :
  actorStatuses actor !! k = Some r → StatusRecord.id r = k.
Proof.
  destruct actor as [a|]; simpl; [|by rewrite lookup_empty].
  apply foldl_recordStatuses_id. intros ? ?. by rewrite lookup_empty.
Qed.

Lemma foldl_recordStatuses_is_Some (obj : gmap string StatusRecord.t)
    (l : list ActiveEffect.t) (k : string) :
  is_Some (foldl recordStatuses obj l !! k) ↔
  is_Some (obj !! k) ∨ ∃ effect, effect ∈ l ∧ k ∈ ActiveEffect.statuses effect.
Proof.
  revert obj. induction l as [|e l IH]; intros obj; simpl.
  - split; [by left|]. intros [?|(? & []%elem_of_nil & _)]; done.
  - rewrite IH, recordStatuses_lookup. case_bool_decide as Hin; split.
    + intros [_|(e' & ? & ?)]; right; [exists e | exists e'];
        split; try done; by constructor.
    + intros _. by left.
    + intros [?|(e' & ? & ?)]; [by left|].
      right. exists e'. split; [by right | done].
    + intros [?|(e' & [->|?]%elem_of_cons & ?)]; [by left | done |].
      right. by exists e'.
Qed.

(** The actor has a record for [k] exactly when one of its active effects
    declares [k]. *)
Lemma actorStatuses_is_Some (actor : option Actor.t) (k : string) :
  is_Some (actorStatuses actor !! k) ↔ declares actor k.
Proof.
  unfold declares. destruct actor as [a|]; simpl.
  - rewrite foldl_recordStatuses_is_Some, lookup_empty. split.
    + intros [[? [=]]|(e & ? & ?)]. by exists a, e.
    + intros (a' & e & [= <-] & ? & ?). right. by exists e.
  - rewrite lookup_empty. split; [by intros [? [=]] | by intros (? & ? & [=] & _)].
Qed.

(** ** The choice mapping *)

Lemma hasProperty_false {A} (obj : gmap string A) (k : string) :
  hasProperty obj k = false ↔ obj !! k = None ∧ k ∉ objectPrototype.
Proof.
  unfold hasProperty. rewrite orb_false_iff, !bool_decide_eq_false.
  by rewrite <-eq_None_not_Some.
Qed.

Lemma hasProperty_true {A} (obj : gmap string A) (k : string) :
  hasProperty obj k = true ↔ is_Some (obj !! k) ∨ k ∈ objectPrototype.
Proof.
  unfold hasProperty. by rewrite orb_true_iff, !bool_decide_eq_true.
Qed.

(** Decides that a given name is not inherited. *)
Ltac not_inherited :=
  let H := fresh in
  let H' := fresh in
  intros H; pose proof (bool_decide_eq_true_2 _ H) as H';
  by vm_compute in H'.

Section Choices.

Variable localize : value → string.
Variable doc : TokenDocument.t.
Variable statuses : gmap string StatusRecord.t.

Lemma addChoice_eq (obj : gmap string StatusChoice.t) (e : candidate) :
  addChoice localize doc statuses obj e =
    if hasProperty obj (keyOf e) then obj
    else <[keyOf e := choiceOf localize doc statuses e]> obj.
Proof. reflexivity. Qed.

Lemma addChoice_lookup_ne (obj : gmap string StatusChoice.t)
    (e : candidate) (k : string) :
  keyOf e ≠ k → addChoice localize doc statuses obj e !! k = obj !! k.
Proof.
  intros Hne. rewrite addChoice_eq. case_match; [done|].
  by rewrite lookup_insert_ne.
Qed.

Lemma addChoice_lookup_Some (obj : gmap string StatusChoice.t)
    (e : candidate) (k : string) (c : StatusChoice.t) :
  obj !! k = Some c → addChoice localize doc statuses obj e !! k = Some c.
Proof.
  intros Hk. rewrite addChoice_eq.
  destruct (hasProperty obj (keyOf e)) eqn:Hin; [done|].
  apply hasProperty_false in Hin as [Hnone _].
  rewrite lookup_insert_ne; [done|]. intros <-. congruence.
Qed.

Lemma addChoice_lookup_new (obj : gmap string StatusChoice.t)
    (e : candidate) :
  obj !! keyOf e = None → keyOf e ∉ objectPrototype →
  addChoice localize doc statuses obj e !! keyOf e
  = Some (choiceOf localize doc statuses e).
Proof.
  intros Hk Hown. rewrite addChoice_eq.
  rewrite (proj2 (hasProperty_false obj (keyOf e))) by done.
  by rewrite lookup_insert_eq.
Qed.

(** No entry is ever written under an inherited name. *)
Lemma addChoice_lookup_inherited (obj : gmap string StatusChoice.t)
    (e : candidate) (k : string) :
  k ∈ objectPrototype →
  addChoice localize doc statuses obj e !! k = obj !! k.
Proof.
  intros Hk. rewrite addChoice_eq.
  destruct (hasProperty obj (keyOf e)) eqn:Hin; [done|].
  apply hasProperty_false in Hin as [_ Hown].
  rewrite lookup_insert_ne; [done|]. intros Heq. by rewrite Heq in Hown.
Qed.

Lemma foldl_addChoice_inherited (l : list candidate)
    (obj : gmap string StatusChoice.t) (k : string) :
  k ∈ objectPrototype →
  foldl (addChoice localize doc statuses) obj l !! k = obj !! k.
Proof.
  intros Hk. revert obj. induction l as [|e l IH]; intros obj; [done|].
  simpl. by rewrite IH, addChoice_lookup_inherited.
Qed.

(** An entry once written is never replaced. *)
Lemma foldl_addChoice_keep (l : list candidate)
    (obj : gmap string StatusChoice.t) (k : string) (c : StatusChoice.t) :
  obj !! k = Some c →
  foldl (addChoice localize doc statuses) obj l !! k = Some c.
Proof.
  revert obj. induction l as [|e l IH]; intros obj Hk; [done|].
  simpl. by apply IH, addChoice_lookup_Some.
Qed.

Lemma foldl_addChoice_skip (l : list candidate)
    (obj : gmap string StatusChoice.t) (k : string) :
  (∀ e, e ∈ l → keyOf e ≠ k) →
  foldl (addChoice localize doc statuses) obj l !! k = obj !! k.
Proof.
  revert obj. induction l as [|e l IH]; intros obj Hl; [done|].
  simpl. rewrite IH by (intros; apply Hl; by right).
  apply addChoice_lookup_ne, Hl. by left.
Qed.

(** The first candidate of a key that is not an inherited name decides the
    entry of that key. *)
Lemma foldl_addChoice_first (before after : list candidate)
    (e : candidate) :
  keyOf e ∉ objectPrototype →
  (∀ e', e' ∈ before → keyOf e' ≠ keyOf e) →
  foldl (addChoice localize doc statuses) ∅ (before ++ e :: after)%list
    !! keyOf e
  = Some (choiceOf localize doc statuses e).
Proof.
  intros Hown Hbefore. rewrite foldl_app. simpl.
  apply foldl_addChoice_keep, addChoice_lookup_new; [|done].
  by rewrite foldl_addChoice_skip, lookup_empty.
Qed.

(** Every entry was written for the first candidate of its key, which is
    not an inherited name. *)
Lemma foldl_addChoice_origin (l : list candidate) (k : string)
    (c : StatusChoice.t) :
  foldl (addChoice localize doc statuses) ∅ l !! k = Some c →
  (k ∉ objectPrototype)
  ∧ ∃ before e after,
      l = (before ++ e :: after)%list ∧ keyOf e = k
      ∧ (∀ e', e' ∈ before → keyOf e' ≠ k)
      ∧ c = choiceOf localize doc statuses e.
Proof.
  intros Hk.
  assert (k ∉ objectPrototype) as Hown.
  { intros Hin. by rewrite foldl_addChoice_inherited, lookup_empty in Hk. }
  split; [done|].
  destruct (list_find (λ e, keyOf e = k) l) as [[i e]|] eqn:Hfind.
  - apply list_find_Some in Hfind as (Hi & Hkey & Hmin).
    exists (take i l), e, (drop (S i) l).
    assert (l = (take i l ++ e :: drop (S i) l)%list) as Hsplit.
    { by rewrite <-(take_drop_middle l i e) at 1. }
    assert (∀ e', e' ∈ take i l → keyOf e' ≠ k) as Hbefore.
    { intros e' [j Hj]%list_elem_of_lookup.
      apply lookup_take_Some in Hj as [Hj ?]. by apply (Hmin j). }
    split_and!; try done.
    rewrite Hsplit, <-Hkey, foldl_addChoice_first in Hk;
      [congruence | by rewrite Hkey | by rewrite Hkey].
  - rewrite foldl_addChoice_skip, lookup_empty in Hk; [done|].
    intros e He Hkey.
    eapply list_find_None in Hfind. rewrite Forall_forall in Hfind.
    by apply (Hfind e).
Qed.

End Choices.

(** C10: when several active effects of the actor declare the same status
    id, the record of that id carries the overlay flag of the last of them
    in the order of [actor.effects], coerced to a boolean: a later effect
    overwrites the record written for an earlier one, so the record is an
    overlay when that last flag is [true] and is not when it is [false] or
    [undefined], whatever the earlier effects say.  The choice mapping does
    the opposite: there the first candidate of a key (not a name inherited
    from [Object.prototype]) decides its entry. *)
Theorem actorStatuses_last_wins (a : Actor.t)
    (before after : list ActiveEffect.t) (effect : ActiveEffect.t)
    (k : string)
    (Heffects : Actor.effects a = (before ++ effect :: after)%list)
    (Hdeclares : k ∈ ActiveEffect.statuses effect)
    (Hlast : ∀ later, later ∈ after → k ∉ ActiveEffect.statuses later) :
  actorStatuses (Some a) !! k
  = Some {| StatusRecord.id := k;
            StatusRecord.overlay :=
              truthy (ActiveEffect.overlayFlag effect) |}
  ∧ (ActiveEffect.overlayFlag effect = VBool true →
     actorStatuses (Some a) !! k
     = Some {| StatusRecord.id := k; StatusRecord.overlay := true |})
  ∧ (ActiveEffect.overlayFlag effect = VBool false
     ∨ ActiveEffect.overlayFlag effect = VUndefined →
     actorStatuses (Some a) !! k
     = Some {| StatusRecord.id := k; StatusRecord.overlay := false |})
  ∧ ∀ localize doc (earlier later : list candidate) (first : candidate),
      keyOf first ∉ objectPrototype →
      (∀ e, e ∈ earlier → keyOf e ≠ keyOf first) →
      foldl (addChoice localize doc (actorStatuses (Some a))) ∅
        (earlier ++ first :: later)%list !! keyOf first
      = Some (choiceOf localize doc (actorStatuses (Some a)) first).
Proof.
  assert (actorStatuses (Some a) !! k
          = Some {| StatusRecord.id := k;
                    StatusRecord.overlay :=
                      truthy (ActiveEffect.overlayFlag effect) |}) as Hk.
  { simpl. rewrite Heffects, foldl_app. simpl.
    rewrite foldl_recordStatuses_none by done.
    rewrite recordStatuses_lookup. by rewrite bool_decide_eq_true_2. }
  split_and!.
  - exact Hk.
  - intros Hflag. by rewrite Hk, Hflag.
  - intros [Hflag|Hflag]; by rewrite Hk, Hflag.
  - intros localize doc earlier later first.
    apply foldl_addChoice_first.
Qed.

Lemma actorStatuses_last_wins_witness :
  actorStatuses
    (Some (Sample.actor [Sample.status ["blinded"] VUndefined;
                         Sample.status ["blinded"; "prone"] (VBool true);
                         Sample.status ["prone"] (VBool false)]))
    !! "blinded"
  = Some {| StatusRecord.id := "blinded"; StatusRecord.overlay := true |}
  ∧ actorStatuses
      (Some (Sample.actor [Sample.status ["blinded"] VUndefined;
                           Sample.status ["blinded"; "prone"] (VBool true);
                           Sample.status ["prone"] (VBool false)]))
      !! "prone"
    = Some {| StatusRecord.id := "prone"; StatusRecord.overlay := false |}.
Proof.
  split.
  - destruct (actorStatuses_last_wins
                (Sample.actor [Sample.status ["blinded"] VUndefined;
                               Sample.status ["blinded"; "prone"] (VBool true);
                               Sample.status ["prone"] (VBool false)])
                [Sample.status ["blinded"] VUndefined]
                [Sample.status ["prone"] (VBool false)]
                (Sample.status ["blinded"; "prone"] (VBool true)) "blinded")
      as (_ & Htrue & _).
    + reflexivity.
    + by vm_compute; left.
    + intros later Hin. apply list_elem_of_singleton in Hin as ->.
      simpl. by intros Hin%list_elem_of_singleton.
    + by apply Htrue.
  - destruct (actorStatuses_last_wins
                (Sample.actor [Sample.status ["blinded"] VUndefined;
                               Sample.status ["blinded"; "prone"] (VBool true);
                               Sample.status ["prone"] (VBool false)])
                [Sample.status ["blinded"] VUndefined;
                 Sample.status ["blinded"; "prone"] (VBool true)]
                []
                (Sample.status ["prone"] (VBool false)) "prone")
      as (_ & _ & Hfalse & _).
    + reflexivity.
    + by vm_compute; left.
    + by intros later Hin%elem_of_nil.
    + apply Hfalse. by left.
Defined.

Lemma getStatusEffectChoices_built (localize : value → string)
    (settings : Settings.t) (catalog : list (gmap string value))
    (token : Token.t) (wrapper : list value → gmap string StatusChoice.t)
    (args : list value) :
  Settings.modifyStatusEffects settings ≠ "none" →
  getStatusEffectChoices localize settings catalog token wrapper args
  = foldl (addChoice localize (Token.document token)
             (actorStatuses (Token.actor token)))
      ∅ (candidates catalog (Token.document token)).
Proof.
  intros Hmode%String.eqb_neq. unfold getStatusEffectChoices.
  by rewrite Hmode.
Qed.

(** C4: the code drops every candidate whose id is a name that a plain
    object inherits, the first of them included.  Of the two entries of the
    catalog with the id ["constructor"] none is in the mapping, because
    ["constructor" in obj] holds of the empty accumulator, while of the two
    with the id ["dead"] the first is there and the second is dropped. *)
Theorem choices_inherited_id_dropped :
  let result :=
    getStatusEffectChoices Sample.localize
      (Sample.settings "replace" [] "unsorted")
      [Sample.entry "constructor" "gear.svg";
       Sample.entry "dead" "skull.svg";
       Sample.entry "constructor" "cog.svg";
       Sample.entry "dead" "tomb.svg"]
      (Sample.token [] [] None) (λ _, ∅) [] in
  result !! "constructor" = None
  ∧ result
    = {[ "dead" := {| StatusChoice.id := VStr "dead";
                      StatusChoice.title := None;
                      StatusChoice.src := VStr "skull.svg";
                      StatusChoice.isActive := false;
                      StatusChoice.isOverlay := false;
                      StatusChoice.cssClass := "" |} ]}.
Proof. split; by vm_compute. Qed.

(** ** The flags of a choice *)

Lemma includes_true (l : list string) (src : value) :
  includes l src = true ↔ ∃ s, src = VStr s ∧ s ∈ l.
Proof.
  destruct src as [| | | |s|]; simpl;
    try (split; [discriminate | by intros (? & [=] & _)]).
  rewrite bool_decide_eq_true. split.
  - intros ?. by exists s.
  - by intros (? & [= <-] & ?).
Qed.

Lemma overlayEffectIs_true (overlayEffect : option string) (src : value) :
  overlayEffectIs overlayEffect src = true ↔
  ∃ s, src = VStr s ∧ overlayEffect = Some s.
Proof.
  destruct overlayEffect as [o|], src as [| | | |s|]; simpl;
    try (split; [discriminate | by intros (? & [=] & [=])]).
  rewrite String.eqb_eq. split.
  - intros ->. by exists s.
  - by intros (? & [= <-] & [= <-]).
Qed.

Lemma choiceOf_isActive (localize : value → string) (doc : TokenDocument.t)
    (actor : option Actor.t) (e : candidate) :
  StatusChoice.isActive (choiceOf localize doc (actorStatuses actor) e) = true
  ↔ (keyOf e ≠ "" ∧ declares actor (keyOf e))
    ∨ ∃ s, srcOf e = VStr s ∧ s ∈ TokenDocument.effects doc.
Proof.
  simpl. rewrite orb_true_iff, includes_true.
  apply or_iff_compat_r.
  rewrite <-actorStatuses_is_Some.
  destruct (actorStatuses actor !! keyOf e) as [r|] eqn:Hr; simpl.
  - rewrite (actorStatuses_id _ _ _ Hr), negb_true_iff, String.eqb_neq.
    split; [by intros ?; split; [|eexists] | by intros [? _]].
  - split; [discriminate | by intros [_ [? [=]]]].
Qed.

Lemma choiceOf_isOverlay (localize : value → string) (doc : TokenDocument.t)
    (statuses : gmap string StatusRecord.t) (e : candidate) :
  StatusChoice.isOverlay (choiceOf localize doc statuses e) = true
  ↔ (∃ r, statuses !! keyOf e = Some r ∧ StatusRecord.overlay r = true)
    ∨ ∃ s, srcOf e = VStr s ∧ TokenDocument.overlayEffect doc = Some s.
Proof.
  simpl. rewrite orb_true_iff, overlayEffectIs_true.
  apply or_iff_compat_r.
  destruct (statuses !! keyOf e) as [r|]; simpl.
  - split; [by intros ?; exists r | by intros (? & [= <-] & ?)].
  - split; [discriminate | by intros (? & [=] & _)].
Qed.

Lemma choiceOf_cssClass (localize : value → string) (doc : TokenDocument.t)
    (statuses : gmap string StatusRecord.t) (e : candidate) :
  let c := choiceOf localize doc statuses e in
  StatusChoice.cssClass c =
    match StatusChoice.isActive c, StatusChoice.isOverlay c with
    | true, true => "active overlay"
    | true, false => "active"
    | false, true => "overlay"
    | false, false => ""
    end.
Proof.
  simpl.
  by destruct (_ || includes _ _), (_ || overlayEffectIs _ _).
Qed.

(** The claim of C3 fails on two counts at one input.  The actor has a
    record for the empty id of the first entry, whose icon is not among the
    effects of the token document, and the choice is not active; and an
    active effect of the actor declares ["blinded"] with the overlay flag
    set, but a later one declares it without, and the choice of
    ["blinded"] is not an overlay. *)
Lemma choice_flags_counterexample :
  let overlaid := Sample.status ["blinded"; ""] (VBool true) in
  let plain := Sample.status ["blinded"] (VBool false) in
  let token := Sample.token [overlaid; plain] [] None in
  let blank := Effect (Sample.entry "" "blank.svg") in
  let statuses := actorStatuses (Token.actor token) in
  let result :=
    getStatusEffectChoices Sample.localize
      (Sample.settings "replace" [] "unsorted")
      [Sample.entry "" "blank.svg"; Sample.entry "blinded" "blind.svg"]
      token (λ _, ∅) [] in
  (∃ c,
     result !! keyOf blank = Some c
     ∧ ¬ (StatusChoice.isActive c = true
          ↔ is_Some (statuses !! keyOf blank)
            ∨ includes (TokenDocument.effects (Token.document token))
                (srcOf blank) = true))
  ∧ (∃ c,
       result !! "blinded" = Some c
       ∧ "blinded" ∈ ActiveEffect.statuses overlaid
       ∧ truthy (ActiveEffect.overlayFlag overlaid) = true
       ∧ StatusChoice.isOverlay c = false
       ∧ StatusChoice.cssClass c = "active").
Proof.
  split.
  - eexists. split; [by vm_compute|].
    intros [_ H]. simpl in H. discriminate H. left. by eexists.
  - eexists. split; [by vm_compute|]. split_and!; try done. by left.
Qed.

(** C3, amended: the choice written for a candidate (the first of its key,
    the key not being a name inherited from [Object.prototype]) is active
    exactly when the property key of its id is not the empty string and an
    active effect of the actor declares that key, or the effects of the
    token document contain the icon of the candidate; it is an overlay
    exactly when the record of that key has its overlay flag set, or the
    overlay effect of the token document is the icon of the candidate; its
    class lists ["active"] and ["overlay"] accordingly.  In particular,
    when the last active effect declaring a non-empty key such as
    ["blinded"] has a truthy overlay flag, the choice of that key is
    active, an overlay, and of class ["active overlay"]. *)
Theorem choice_flags (localize : value → string)
    (settings : Settings.t) (catalog : list (gmap string value))
    (token : Token.t) (wrapper : list value → gmap string StatusChoice.t)
    (args : list value) (before after : list candidate) (e : candidate)
    (Hmode : Settings.modifyStatusEffects settings ≠ "none")
    (Hcandidates :
       candidates catalog (Token.document token)
       = (before ++ e :: after)%list)
    (Hfirst : ∀ e', e' ∈ before → keyOf e' ≠ keyOf e)
    (Hown : keyOf e ∉ objectPrototype) :
  let doc := Token.document token in
  let actor := Token.actor token in
  ∃ c,
    getStatusEffectChoices localize settings catalog token wrapper args
      !! keyOf e = Some c
    ∧ (StatusChoice.isActive c = true
       ↔ (keyOf e ≠ "" ∧ declares actor (keyOf e))
         ∨ ∃ s, srcOf e = VStr s ∧ s ∈ TokenDocument.effects doc)
    ∧ (StatusChoice.isOverlay c = true
       ↔ (∃ r, actorStatuses actor !! keyOf e = Some r
               ∧ StatusRecord.overlay r = true)
         ∨ ∃ s, srcOf e = VStr s ∧ TokenDocument.overlayEffect doc = Some s)
    ∧ StatusChoice.cssClass c
      = filterJoin
          [if StatusChoice.isActive c then Some "active" else None;
           if StatusChoice.isOverlay c then Some "overlay" else None] " "
    ∧ (∀ a earlier effect later,
         actor = Some a →
         Actor.effects a = (earlier ++ effect :: later)%list →
         keyOf e ≠ "" →
         keyOf e ∈ ActiveEffect.statuses effect →
         truthy (ActiveEffect.overlayFlag effect) = true →
         (∀ l, l ∈ later → keyOf e ∉ ActiveEffect.statuses l) →
         StatusChoice.isActive c = true
         ∧ StatusChoice.isOverlay c = true
         ∧ StatusChoice.cssClass c = "active overlay").
Proof.
  intros doc actor.
  exists (choiceOf localize doc (actorStatuses actor) e).
  split.
  { rewrite getStatusEffectChoices_built by done.
    rewrite Hcandidates. by apply foldl_addChoice_first. }
  split; [apply choiceOf_isActive|].
  split; [apply choiceOf_isOverlay|].
  split; [done|].
  intros a earlier effect later Hactor Heffects Hkey Hin Hflag Hlast.
  assert (StatusChoice.isActive
            (choiceOf localize doc (actorStatuses actor) e) = true) as Hact.
  { apply choiceOf_isActive. left. split; [done|].
    exists a, effect. split_and!; try done.
    rewrite Heffects. apply elem_of_app. right. by left. }
  assert (StatusChoice.isOverlay
            (choiceOf localize doc (actorStatuses actor) e) = true) as Hov.
  { apply choiceOf_isOverlay. left. eexists. split.
    - rewrite Hactor. simpl. rewrite Heffects, foldl_app. simpl.
      rewrite foldl_recordStatuses_none by done.
      rewrite recordStatuses_lookup. by rewrite bool_decide_eq_true_2.
    - done. }
  split_and!; try done.
  rewrite choiceOf_cssClass. by rewrite Hact, Hov.
Qed.

Lemma choice_flags_witness :
  ∃ c,
    getStatusEffectChoices Sample.localize
      (Sample.settings "add" [] "unsorted")
      [Sample.entry "blinded" "blind.svg"]
      (Sample.token [Sample.status ["blinded"] (VBool true)] [] None)
      (λ _, ∅) [] !! "blinded" = Some c
    ∧ StatusChoice.isActive c = true
    ∧ StatusChoice.isOverlay c = true
    ∧ StatusChoice.cssClass c = "active overlay".
Proof.
  destruct (choice_flags Sample.localize
              (Sample.settings "add" [] "unsorted")
              [Sample.entry "blinded" "blind.svg"]
              (Sample.token [Sample.status ["blinded"] (VBool true)] [] None)
              (λ _, ∅) [] [] []
              (Effect (Sample.entry "blinded" "blind.svg")))
    as (c & Hc & _ & _ & _ & Hblinded).
  - by vm_compute.
  - reflexivity.
  - by intros e' Hin%elem_of_nil.
  - not_inherited.
  - exists c. split; [exact Hc|].
    apply (Hblinded (Sample.actor [Sample.status ["blinded"] (VBool true)])
             [] (Sample.status ["blinded"] (VBool true)) []).
    + reflexivity.
    + reflexivity.
    + by vm_compute.
    + by vm_compute; left.
    + reflexivity.
    + by intros l Hin%elem_of_nil.
Defined.

(** ** The keys of the choice mapping *)

(** A key that occurs in a list of candidates has a first occurrence. *)
Lemma first_of_key (l : list candidate) (e : candidate) :
  e ∈ l →
  ∃ before first after,
    l = (before ++ first :: after)%list ∧ keyOf first = keyOf e
    ∧ ∀ e', e' ∈ before → keyOf e' ≠ keyOf e.
Proof.
  induction l as [|x l IH]; [by intros ?%elem_of_nil|].
  intros Hin. destruct (decide (keyOf x = keyOf e)) as [Heq|Hne].
  - exists [], x, l. split_and!; try done. by intros ? ?%elem_of_nil.
  - apply elem_of_cons in Hin as [->|Hin]; [done|].
    destruct (IH Hin) as (before & first & after & -> & Hkey & Hbefore).
    exists (x :: before), first, after. split_and!; try done.
    intros e' [->|?]%elem_of_cons; [done | by apply Hbefore].
Qed.

Lemma foldl_addChoice_is_Some (localize : value → string)
    (doc : TokenDocument.t) (statuses : gmap string StatusRecord.t)
    (l : list candidate) (e : candidate) :
  e ∈ l → keyOf e ∉ objectPrototype →
  is_Some (foldl (addChoice localize doc statuses) ∅ l !! keyOf e).
Proof.
  intros (before & first & after & -> & Hkey & Hbefore)%first_of_key Hown.
  rewrite <-Hkey, foldl_addChoice_first; [by eexists | | ];
    by rewrite Hkey.
Qed.

(** C5: the code does not key the effects taken from the token document
    by an id.  They are icon paths, [e.id] is [undefined] for each of them,
    and the two distinct effects of this token document fall under the one
    key ["undefined"]: the mapping has a single entry, that of the first
    icon, whose recorded id [""] is not its key, and the second effect is
    not in the mapping. *)
Theorem choices_token_effects_collapse :
  let token := Sample.token [] ["a.png"; "b.png"] None in
  let result :=
    getStatusEffectChoices Sample.localize
      (Sample.settings "replace" [] "unsorted") [] token (λ _, ∅) [] in
  candidates [] (Token.document token) = [Icon "a.png"; Icon "b.png"]
  ∧ result
    = {[ "undefined" := {| StatusChoice.id := VStr "";
                           StatusChoice.title := None;
                           StatusChoice.src := VStr "a.png";
                           StatusChoice.isActive := true;
                           StatusChoice.isOverlay := false;
                           StatusChoice.cssClass := "active" |} ]}
  ∧ ¬ (∀ k c, result !! k = Some c → VStr k = StatusChoice.id c)
  ∧ ¬ (∃ k c, result !! k = Some c ∧ StatusChoice.src c = VStr "b.png").
Proof.
  intros token result.
  assert (result
          = {[ "undefined" := {| StatusChoice.id := VStr "";
                                 StatusChoice.title := None;
                                 StatusChoice.src := VStr "a.png";
                                 StatusChoice.isActive := true;
                                 StatusChoice.isOverlay := false;
                                 StatusChoice.cssClass := "active" |} ]})
    as Hresult by by vm_compute.
  split; [done|]. split; [exact Hresult|]. rewrite Hresult. split.
  - intros H. specialize (H "undefined" _ (lookup_singleton_eq _ _)).
    discriminate H.
  - intros (k & c & Hc & Hsrc).
    apply lookup_singleton_Some in Hc as [_ <-]. discriminate Hsrc.
Qed.

(** ** The icon refresher *)

Lemma elem_of_toggle (classList : gset string) (token cls : string)
    (force : bool) :
  cls ∈ toggle classList token force ↔
  if decide (cls = token) then force = true else cls ∈ classList.
Proof.
  unfold toggle. destruct force.
  - rewrite elem_of_union, elem_of_singleton.
    destruct (decide (cls = token)); [by split; [|right] | ].
    split; [by intros [?|?] | by left].
  - rewrite elem_of_difference, elem_of_singleton.
    destruct (decide (cls = token)); [by split; [intros [_ ?]|] | ].
    split; [by intros [? _] | done].
Qed.

Ltac toggle_cases :=
  repeat (rewrite elem_of_toggle; case_decide; try done).

(** C9: for every [img] of the status-effect container,
    [refreshStatusIcons] looks its status up in the choice mapping under
    the identifier of the dataset of the [img], whatever its [src], and
    leaves the [img] with the class ["overlay"] exactly when that status is
    an overlay and with the class ["active"] exactly when it is active; an
    [img] whose identifier has no entry in the mapping loses both classes.
    The other classes, the identifier and the [src] are not touched. *)
Theorem refreshStatusIcons_classes (tokenHud : TokenHUD.t)
    (children : list Img.t)
    (Hcontainer : TokenHUD.statusEffects tokenHud = Some children) :
  ∃ refreshed,
    refreshStatusIcons tokenHud = Normal refreshed
    ∧ length refreshed = length children
    ∧ ∀ i img, children !! i = Some img →
        ∃ img',
          refreshed !! i = Some img'
          ∧ Img.statusId img' = Img.statusId img
          ∧ Img.src img' = Img.src img
          ∧ let status :=
              TokenHUD.choices tokenHud
                !! to_key (from_option VStr VUndefined (Img.statusId img)) in
            ("overlay" ∈ Img.classList img'
             ↔ ∃ c, status = Some c ∧ StatusChoice.isOverlay c = true)
            ∧ ("active" ∈ Img.classList img'
               ↔ ∃ c, status = Some c ∧ StatusChoice.isActive c = true)
            ∧ (status = None →
               ("overlay" ∉ Img.classList img')
               ∧ ("active" ∉ Img.classList img'))
            ∧ ∀ cls, cls ≠ "overlay" → cls ≠ "active" →
                (cls ∈ Img.classList img' ↔ cls ∈ Img.classList img).
Proof.
  exists (refreshIcon (TokenHUD.choices tokenHud) <$> children).
  split; [unfold refreshStatusIcons; by rewrite Hcontainer|].
  split; [apply length_fmap|].
  intros i img Hi. exists (refreshIcon (TokenHUD.choices tokenHud) img).
  split; [by rewrite list_lookup_fmap, Hi|].
  split; [done|]. split; [done|].
  unfold refreshIcon. cbv zeta. cbn [Img.classList].
  destruct (TokenHUD.choices tokenHud !! _) as [c|]; cbn [from_option].
  - split_and!.
    + toggle_cases.
      split; [by exists c | by intros (? & [= <-] & ?)].
    + toggle_cases.
      split; [by exists c | by intros (? & [= <-] & ?)].
    + done.
    + intros cls ? ?. by toggle_cases.
  - split_and!.
    + toggle_cases.
      split; [done | by intros (? & [=] & _)].
    + toggle_cases.
      split; [done | by intros (? & [=] & _)].
    + intros _. by toggle_cases.
    + intros cls ? ?. by toggle_cases.
Qed.

Lemma refreshStatusIcons_classes_witness :
  ∃ refreshed blinded,
    refreshStatusIcons
      {| TokenHUD.statusEffects :=
           Some [Sample.img (Some "blinded") "eye.svg" ["effect-control"];
                 Sample.img (Some "deaf") "eye.svg" ["active"; "overlay"]];
         TokenHUD.choices :=
           {[ "blinded" := Sample.choice "blinded" true false ]} |}
    = Normal refreshed
    ∧ refreshed !! 0 = Some blinded
    ∧ "active" ∈ Img.classList blinded.
Proof.
  destruct (refreshStatusIcons_classes
              {| TokenHUD.statusEffects :=
                   Some [Sample.img (Some "blinded") "eye.svg"
                           ["effect-control"];
                         Sample.img (Some "deaf") "eye.svg"
                           ["active"; "overlay"]];
                 TokenHUD.choices :=
                   {[ "blinded" := Sample.choice "blinded" true false ]} |}
              [Sample.img (Some "blinded") "eye.svg" ["effect-control"];
               Sample.img (Some "deaf") "eye.svg" ["active"; "overlay"]]
              eq_refl) as (refreshed & Hrun & _ & Hall).
  destruct (Hall 0 (Sample.img (Some "blinded") "eye.svg" ["effect-control"])
              eq_refl) as (blinded & Hblinded & _ & _ & _ & Hactive & _).
  exists refreshed, blinded. split_and!; [exact Hrun | exact Hblinded |].
  apply Hactive. eexists. split; [by vm_compute | done].
Defined.

(** ** The order of strings *)

Lemma ltb_lt (a b : string) :
  String.ltb a b = true ↔ OrderedTypeEx.String_as_OT.lt a b.
Proof.
  unfold String.ltb. rewrite <-OrderedTypeEx.String_as_OT.cmp_lt.
  unfold OrderedTypeEx.String_as_OT.cmp.
  by destruct (String.compare a b).
Qed.

Lemma ltb_irrefl (a : string) : String.ltb a a = false.
Proof.
  apply not_true_iff_false. rewrite ltb_lt. intros H.
  by apply OrderedTypeEx.String_as_OT.lt_not_eq in H.
Qed.

Lemma ltb_trans (a b c : string) :
  String.ltb a b = true → String.ltb b c = true → String.ltb a c = true.
Proof. rewrite !ltb_lt. apply OrderedTypeEx.String_as_OT.lt_trans. Qed.

(** Two strings are equal or one is below the other. *)
Lemma ltb_total (a b : string) :
  String.ltb a b = true ∨ a = b ∨ String.ltb b a = true.
Proof.
  unfold String.ltb. rewrite (String.compare_antisym b a).
  destruct (String.compare a b) eqn:Hc; simpl; auto.
  apply String.compare_eq_iff in Hc. auto.
Qed.

(** The byte order is a strict total order. *)
Lemma ltb_strictTotal : strictTotal String.ltb.
Proof.
  split; [apply ltb_irrefl | apply ltb_trans | apply ltb_total].
Qed.

Section Order.

Variable lessThan : string → string → bool.
Hypothesis Horder : strictTotal lessThan.

Lemma lessThan_asym (a b : string) :
  lessThan a b = true → lessThan b a = false.
Proof.
  intros Hab. apply not_true_iff_false. intros Hba.
  pose proof (lessThan_trans _ Horder _ _ _ Hab Hba) as H.
  by rewrite (lessThan_irrefl _ Horder) in H.
Qed.

Lemma str_le_refl (a : string) : str_le lessThan a a.
Proof. apply (lessThan_irrefl _ Horder). Qed.

Lemma str_lt_le (a b : string) :
  lessThan a b = true → str_le lessThan a b.
Proof. apply lessThan_asym. Qed.

Lemma str_le_trans (a b c : string) :
  str_le lessThan a b → str_le lessThan b c → str_le lessThan a c.
Proof.
  unfold str_le. intros Hab Hbc.
  destruct (lessThan_total _ Horder a b) as [Hlt|[->|Hlt]];
    [|done|congruence].
  destruct (lessThan_total _ Horder b c) as [Hlt'|[<-|Hlt']];
    [| |congruence].
  - apply lessThan_asym. by apply (lessThan_trans _ Horder) with b.
  - by apply lessThan_asym.
Qed.

End Order.

(** ** ASCII text *)

Lemma lowerAsciiChar_ascii (c : ascii) :
  (nat_of_ascii c < 128)%nat → (nat_of_ascii (lowerAsciiChar c) < 128)%nat.
Proof.
  intros Hc. unfold lowerAsciiChar.
  destruct ((65 <=? nat_of_ascii c)%nat && (nat_of_ascii c <=? 90)%nat)
    eqn:Hupper; [|done].
  apply andb_true_iff in Hupper as [_ Hle%Nat.leb_le].
  rewrite nat_ascii_embedding; lia.
Qed.

Lemma lowerAscii_ascii (s : string) : isAscii s → isAscii (lowerAscii s).
Proof.
  unfold isAscii. induction s as [|c s IH]; simpl; [done|].
  intros [Hc Hs]%Forall_cons. constructor; [|by apply IH].
  by apply lowerAsciiChar_ascii.
Qed.

(** Decides that a given text is ASCII. *)
Ltac ascii_text :=
  unfold isAscii; simpl;
  repeat (constructor; [vm_compute; lia|]); constructor.

Lemma asciiPrimitives_sample :
  asciiPrimitives Sample.toLowerCase Sample.lessThan.
Proof. by split. Qed.

(** ** The sort of the fetcher *)

Lemma insertSorted_perm {A} (cmp : A → A → completion Z) (x : A)
    (l r : list A) :
  insertSorted cmp x l = Normal r → r ≡ₚ x :: l.
Proof.
  revert r. induction l as [|y l IH]; intros r; simpl.
  - by intros [= <-].
  - destruct (cmp x y) as [c|]; simpl; [|done].
    destruct (0 <? c)%Z.
    + destruct (insertSorted cmp x l) as [r'|]; simpl; [|done].
      intros [= <-]. rewrite (IH r' eq_refl). apply Permutation_swap.
    + by intros [= <-].
Qed.

Lemma sort_perm {A} (cmp : A → A → completion Z) (l r : list A) :
  sort cmp l = Normal r → r ≡ₚ l.
Proof.
  revert r. induction l as [|x l IH]; intros r; simpl.
  - by intros [= <-].
  - destruct (sort cmp l) as [s|]; simpl; [|done].
    intros Hr%insertSorted_perm. by rewrite Hr, (IH s eq_refl).
Qed.

Lemma filter_ext_Forall {A} (P Q : A → Prop) `{!∀ x, Decision (P x)}
    `{!∀ x, Decision (Q x)} (l : list A) :
  Forall (λ x, P x ↔ Q x) l → filter P l = filter Q l.
Proof.
  induction 1 as [|x l Hx Hl IH]; [done|].
  rewrite !filter_cons, IH.
  destruct (decide (P x)) as [Hp|Hp], (decide (Q x)) as [Hq|Hq];
    try done; by destruct Hx; exfalso; auto.
Qed.

Lemma StronglySorted_impl {A} (R R' : A → A → Prop) (P : A → Prop)
    (l : list A) :
  (∀ a b, P a → P b → R a b → R' a b) →
  Forall P l → StronglySorted R l → StronglySorted R' l.
Proof.
  intros HR HP Hs. induction Hs as [|x l Hs IH Hx]; [constructor|].
  apply Forall_cons in HP as [Hpx Hpl]. constructor; [by apply IH|].
  rewrite Forall_forall in *. intros y Hy. apply HR; auto.
Qed.

Section Sort.

Variable toLowerCase : string → string.
Variable lessThan : string → string → bool.

Lemma lowerName_named (d : gmap string value) :
  named d → lowerName toLowerCase d = Normal (sortKey toLowerCase d).
Proof.
  intros [s Hs]. unfold lowerName, sortKey, nameOf. by rewrite Hs.
Qed.

Lemma compareNames_named (a b : gmap string value) :
  named a → named b →
  compareNames toLowerCase lessThan a b =
    Normal (if lessThan (sortKey toLowerCase a) (sortKey toLowerCase b)
            then (-1)%Z
            else if lessThan (sortKey toLowerCase b) (sortKey toLowerCase a)
                 then 1%Z else 0%Z).
Proof.
  intros Ha Hb. unfold compareNames.
  rewrite (lowerName_named _ Ha), (lowerName_named _ Hb). simpl.
  by repeat case_match.
Qed.

Lemma compareNames_Normal (a b : gmap string value) (c : Z) :
  compareNames toLowerCase lessThan a b = Normal c → named a ∧ named b.
Proof.
  unfold compareNames, lowerName, named.
  destruct (a !! "name") as [[| | | |s|]|]; try done.
  destruct (b !! "name") as [[| | | |t|]|]; try done.
  intros _. split; by eexists.
Qed.

Lemma insertSorted_named (x : gmap string value)
    (l : list (gmap string value)) :
  named x → Forall named l →
  ∃ r, insertSorted (compareNames toLowerCase lessThan) x l = Normal r.
Proof.
  intros Hx. induction 1 as [|y l Hy Hl [r IH]]; simpl; [by eexists|].
  rewrite (compareNames_named x y Hx Hy). simpl.
  case_match; [rewrite IH|]; by eexists.
Qed.

(** The sort returns when every entry has a string name. *)
Lemma sort_named (l : list (gmap string value)) :
  Forall named l →
  ∃ r, sort (compareNames toLowerCase lessThan) l = Normal r.
Proof.
  induction 1 as [|x l Hx Hl [s IH]]; simpl; [by eexists|].
  rewrite IH. simpl. apply insertSorted_named; [done|].
  by rewrite (sort_perm _ _ _ IH).
Qed.

(** A sort of two or more entries that returns has compared every entry. *)
Lemma sort_Normal_named (l r : list (gmap string value)) :
  sort (compareNames toLowerCase lessThan) l = Normal r →
  (2 ≤ List.length l)%nat → Forall named l.
Proof.
  revert r. induction l as [|x l IH]; intros r; simpl; [lia|].
  destruct (sort (compareNames toLowerCase lessThan) l) as [s|] eqn:Hs;
    simpl; [|done].
  intros Hr Hlen.
  pose proof (sort_perm _ _ _ Hs) as Hperm.
  destruct s as [|y s'].
  { apply Permutation_nil_l in Hperm. subst l. simpl in Hlen. lia. }
  simpl in Hr.
  destruct (compareNames toLowerCase lessThan x y) as [c|] eqn:Hc;
    simpl in Hr; [|done].
  apply compareNames_Normal in Hc as [Hx Hy].
  constructor; [done|].
  destruct l as [|z [|z' l']].
  - simpl in Hlen. lia.
  - simpl in Hs. injection Hs as <- <-. by constructor.
  - apply (IH _ eq_refl). simpl. lia.
Qed.

Hypothesis Horder : strictTotal lessThan.

(** On named entries the comparison is positive exactly when the second
    name is below the first. *)
Lemma compareNames_positive (a b : gmap string value) :
  named a → named b →
  ∃ c, compareNames toLowerCase lessThan a b = Normal c
       ∧ ((0 <? c)%Z
          = lessThan (sortKey toLowerCase b) (sortKey toLowerCase a)).
Proof.
  intros Ha Hb. rewrite compareNames_named by done.
  eexists. split; [done|].
  destruct (lessThan (sortKey toLowerCase a) (sortKey toLowerCase b))
    eqn:Hab.
  - by rewrite (lessThan_asym _ Horder _ _ Hab).
  - by destruct (lessThan (sortKey toLowerCase b) (sortKey toLowerCase a)).
Qed.

Lemma insertSorted_sorted (x : gmap string value)
    (l r : list (gmap string value)) :
  named x → Forall named l →
  StronglySorted (key_le toLowerCase lessThan) l →
  insertSorted (compareNames toLowerCase lessThan) x l = Normal r →
  StronglySorted (key_le toLowerCase lessThan) r.
Proof.
  intros Hx Hl Hs. revert r.
  induction Hs as [|y l Hs IH Hy]; intros r; simpl.
  - intros [= <-]. by repeat constructor.
  - apply Forall_cons in Hl as [Hny Hl].
    destruct (compareNames_positive x y Hx Hny) as (c & -> & Hc). simpl.
    rewrite Hc.
    destruct (lessThan (sortKey toLowerCase y) (sortKey toLowerCase x))
      eqn:Hyx.
    + destruct (insertSorted (compareNames toLowerCase lessThan) x l)
        as [r'|] eqn:Hr'; simpl; [|done].
      intros [= <-]. constructor; [by apply IH|].
      rewrite (insertSorted_perm _ _ _ _ Hr'). constructor; [|done].
      by apply str_lt_le.
    + intros [= <-]. constructor; [by constructor|].
      constructor; [exact Hyx|].
      eapply Forall_impl; [exact Hy|]. intros z Hz.
      by apply (str_le_trans _ Horder) with (sortKey toLowerCase y).
Qed.

(** The entries of one key keep the order they had. *)
Lemma insertSorted_stable (x : gmap string value)
    (l r : list (gmap string value)) (k : string) :
  named x → Forall named l →
  insertSorted (compareNames toLowerCase lessThan) x l = Normal r →
  filter (λ d, sortKey toLowerCase d = k) r
  = filter (λ d, sortKey toLowerCase d = k) (x :: l).
Proof.
  intros Hx Hl. revert r.
  induction Hl as [|y l Hny Hl IH]; intros r; simpl.
  - by intros [= <-].
  - destruct (compareNames_positive x y Hx Hny) as (c & -> & Hc). simpl.
    rewrite Hc.
    destruct (lessThan (sortKey toLowerCase y) (sortKey toLowerCase x))
      eqn:Hyx.
    + destruct (insertSorted (compareNames toLowerCase lessThan) x l)
        as [r'|] eqn:Hr'; simpl; [|done].
      intros [= <-]. specialize (IH r' eq_refl).
      assert (sortKey toLowerCase y ≠ sortKey toLowerCase x) as Hne
        by (intros Heq; by rewrite Heq, (lessThan_irrefl _ Horder) in Hyx).
      rewrite !filter_cons in *. rewrite IH.
      repeat case_decide; congruence.
    + by intros [= <-].
Qed.

Lemma sort_sorted (l r : list (gmap string value)) :
  Forall named l →
  sort (compareNames toLowerCase lessThan) l = Normal r →
  StronglySorted (key_le toLowerCase lessThan) r.
Proof.
  intros Hl. revert r. induction Hl as [|x l Hx Hl IH]; intros r; simpl.
  - intros [= <-]. constructor.
  - destruct (sort (compareNames toLowerCase lessThan) l) as [s|] eqn:Hs;
      simpl; [|done].
    apply insertSorted_sorted; [done| |by apply IH].
    by rewrite (sort_perm _ _ _ Hs).
Qed.

Lemma sort_stable (l r : list (gmap string value)) (k : string) :
  Forall named l →
  sort (compareNames toLowerCase lessThan) l = Normal r →
  filter (λ d, sortKey toLowerCase d = k) r
  = filter (λ d, sortKey toLowerCase d = k) l.
Proof.
  intros Hl. revert r. induction Hl as [|x l Hx Hl IH]; intros r; simpl.
  - by intros [= <-].
  - destruct (sort (compareNames toLowerCase lessThan) l) as [s|] eqn:Hs;
      simpl; [|done].
    intros Hr.
    rewrite (insertSorted_stable x s r k Hx);
      [|by rewrite (sort_perm _ _ _ Hs)|done].
    rewrite !filter_cons. by rewrite (IH s eq_refl).
Qed.

End Sort.

(** ** The fetcher *)

Section Fetcher.

Variable getId : string → string.
Variable findEffectByName : string → option EffectLike.t.
Variable toLowerCase : string → string.
Variable lessThan : string → string → bool.

Lemma effectDefinition_lookup (effect : EffectLike.t) (k : string) :
  effectDefinition getId effect !! k =
    match EffectLike.toObject effect !! k with
    | Some v => Some v
    | None =>
        if decide (k = "id")
        then Some (VStr (getId (EffectLike.name effect))) else None
    end.
Proof.
  unfold effectDefinition. rewrite lookup_union.
  destruct (EffectLike.toObject effect !! k) as [v|]; simpl.
  - by destruct ({[ "id" := _ ]} !! k).
  - case_decide as Hk.
    + subst k. by rewrite lookup_singleton_eq.
    + by rewrite lookup_singleton_ne.
Qed.

Lemma fetch_unsorted (settings : Settings.t) :
  Settings.statusEffectsSortOrder settings ≠ "alphabetical" →
  _fetchStatusEffects getId findEffectByName toLowerCase lessThan settings
  = Normal (effectDefinition getId <$> resolved findEffectByName settings).
Proof.
  intros Horder%String.eqb_neq. unfold _fetchStatusEffects.
  by rewrite Horder.
Qed.

Lemma fetch_alphabetical (settings : Settings.t) :
  Settings.statusEffectsSortOrder settings = "alphabetical" →
  _fetchStatusEffects getId findEffectByName toLowerCase lessThan settings
  = sort (compareNames toLowerCase lessThan)
      (effectDefinition getId <$> resolved findEffectByName settings).
Proof.
  intros Horder%String.eqb_eq. unfold _fetchStatusEffects.
  by rewrite Horder.
Qed.

(** The fetcher returns the definitions of the resolved effects, in some
    order. *)
Lemma fetch_perm (settings : Settings.t)
    (fetched : list (gmap string value)) :
  _fetchStatusEffects getId findEffectByName toLowerCase lessThan settings
  = Normal fetched →
  fetched ≡ₚ effectDefinition getId <$> resolved findEffectByName settings.
Proof.
  unfold _fetchStatusEffects. case_match.
  - apply sort_perm.
  - by intros [= <-].
Qed.

(** The fetcher returns when the order is not alphabetical or every
    definition has a string name. *)
Lemma fetch_returns (settings : Settings.t) :
  Settings.statusEffectsSortOrder settings ≠ "alphabetical"
  ∨ Forall named
      (effectDefinition getId <$> resolved findEffectByName settings) →
  ∃ fetched,
    _fetchStatusEffects getId findEffectByName toLowerCase lessThan settings
    = Normal fetched.
Proof.
  intros [Horder|Hnamed].
  - rewrite fetch_unsorted by done. by eexists.
  - unfold _fetchStatusEffects. case_match; [|by eexists].
    by apply sort_named.
Qed.

End Fetcher.

Lemma effectDefinition_name (getId : string → string)
    (effect : EffectLike.t) (s : string) :
  EffectLike.toObject effect !! "name" = Some (VStr s) →
  named (effectDefinition getId effect)
  ∧ nameOf (effectDefinition getId effect) = s.
Proof.
  intros Hs.
  assert (effectDefinition getId effect !! "name" = Some (VStr s)) as Hname
    by by rewrite effectDefinition_lookup, Hs.
  split; [by exists s | unfold nameOf; by rewrite Hname].
Qed.

(** C8: when the sort order is alphabetical and the resolved effects have
    names, the fetcher returns their definitions sorted by lower-cased name
    under [<], those of equal lower-cased name in the order they were
    looked up; on ASCII names this is the byte order of the names with [A]
    to [Z] lowered, so that case does not count.  For any other sort order
    it returns them in lookup order.  The names ["Blinded"] and ["Ablaze"],
    in this order, come out as [Ablaze; Blinded] under the alphabetical
    order and as [Blinded; Ablaze] otherwise; and ["Cherry"] looked up
    before ["banana"] comes out after it under the alphabetical order,
    although its first byte is the smaller one. *)
Theorem fetch_order (getId : string → string)
    (findEffectByName : string → option EffectLike.t)
    (toLowerCase : string → string) (lessThan : string → string → bool)
    (settings : Settings.t) :
  let definitions :=
    effectDefinition getId <$> resolved findEffectByName settings in
  let fetched :=
    _fetchStatusEffects getId findEffectByName toLowerCase lessThan
      settings in
  (Settings.statusEffectsSortOrder settings = "alphabetical" →
   Forall named definitions → strictTotal lessThan →
   ∃ sorted,
     fetched = Normal sorted
     ∧ sorted ≡ₚ definitions
     ∧ StronglySorted (key_le toLowerCase lessThan) sorted
     ∧ (∀ k, filter (λ d, sortKey toLowerCase d = k) sorted
             = filter (λ d, sortKey toLowerCase d = k) definitions)
     ∧ (asciiPrimitives toLowerCase lessThan →
        Forall (λ d, isAscii (nameOf d)) definitions →
        StronglySorted
          (λ a b, String.ltb (lowerAscii (nameOf b)) (lowerAscii (nameOf a))
                  = false) sorted
        ∧ ∀ k, filter (λ d, lowerAscii (nameOf d) = k) sorted
               = filter (λ d, lowerAscii (nameOf d) = k) definitions))
  ∧ (Settings.statusEffectsSortOrder settings ≠ "alphabetical" →
     fetched = Normal definitions)
  ∧ (∀ blinded ablaze,
       Settings.statusEffectNames settings = ["Blinded"; "Ablaze"] →
       findEffectByName "Blinded" = Some blinded →
       findEffectByName "Ablaze" = Some ablaze →
       EffectLike.toObject blinded !! "name" = Some (VStr "Blinded") →
       EffectLike.toObject ablaze !! "name" = Some (VStr "Ablaze") →
       asciiPrimitives toLowerCase lessThan →
       fetched
       = Normal
           (if String.eqb (Settings.statusEffectsSortOrder settings)
                 "alphabetical"
            then [effectDefinition getId ablaze;
                  effectDefinition getId blinded]
            else [effectDefinition getId blinded;
                  effectDefinition getId ablaze]))
  ∧ (∀ cherry banana,
       Settings.statusEffectNames settings = ["Cherry"; "banana"] →
       Settings.statusEffectsSortOrder settings = "alphabetical" →
       findEffectByName "Cherry" = Some cherry →
       findEffectByName "banana" = Some banana →
       EffectLike.toObject cherry !! "name" = Some (VStr "Cherry") →
       EffectLike.toObject banana !! "name" = Some (VStr "banana") →
       asciiPrimitives toLowerCase lessThan →
       fetched
       = Normal [effectDefinition getId banana;
                 effectDefinition getId cherry]).
Proof.
  intros definitions fetched. subst fetched. split_and!.
  - intros Horder Hnamed Hstrict.
    destruct (sort_named toLowerCase lessThan _ Hnamed) as [sorted Hsorted].
    exists sorted. rewrite fetch_alphabetical by done.
    pose proof (sort_perm _ _ _ Hsorted) as Hperm.
    split_and!;
      [done | done
      | by apply (sort_sorted toLowerCase lessThan Hstrict definitions) | |].
    + intros k. by apply (sort_stable toLowerCase lessThan Hstrict).
    + intros [Hlower Hless] Hascii.
      assert (Forall (λ d, isAscii (nameOf d)) sorted) as Hascii'
        by by rewrite Hperm.
      assert (∀ d, isAscii (nameOf d) →
                sortKey toLowerCase d = lowerAscii (nameOf d)) as Hkey
        by (intros d Hd; by apply Hlower).
      split.
      * apply (StronglySorted_impl (key_le toLowerCase lessThan) _
                 (λ d, isAscii (nameOf d)) sorted);
          [| exact Hascii'
           | by apply (sort_sorted toLowerCase lessThan Hstrict definitions)].
        intros a b Ha Hb Hab. unfold key_le, str_le in Hab.
        rewrite (Hkey a), (Hkey b), Hless in Hab by auto using lowerAscii_ascii.
        exact Hab.
      * intros k.
        rewrite (filter_ext_Forall _ (λ d, sortKey toLowerCase d = k) sorted),
          (filter_ext_Forall _ (λ d, sortKey toLowerCase d = k) definitions).
        -- by apply (sort_stable toLowerCase lessThan Hstrict).
        -- eapply Forall_impl; [exact Hascii|]. intros d Hd. simpl.
           by rewrite (Hkey d).
        -- eapply Forall_impl; [exact Hascii'|]. intros d Hd. simpl.
           by rewrite (Hkey d).
  - apply fetch_unsorted.
  - intros blinded ablaze Hnames Hb Ha Hnb Hna [Hlower Hless].
    unfold _fetchStatusEffects. rewrite Hnames. simpl. rewrite Hb, Ha. simpl.
    case_match; [|done].
    destruct (effectDefinition_name getId _ _ Hnb) as [Hb1 Hb2].
    destruct (effectDefinition_name getId _ _ Hna) as [Ha1 Ha2].
    rewrite (compareNames_named _ _ _ _ Hb1 Ha1). unfold sortKey.
    rewrite Hb2, Ha2.
    rewrite (Hlower "Blinded"), (Hlower "Ablaze") by ascii_text.
    rewrite !Hless by ascii_text. done.
  - intros cherry banana Hnames Horder%String.eqb_eq Hc Hb Hnc Hnb
      [Hlower Hless].
    unfold _fetchStatusEffects. rewrite Hnames, Horder. simpl.
    rewrite Hc, Hb. simpl.
    destruct (effectDefinition_name getId _ _ Hnc) as [Hc1 Hc2].
    destruct (effectDefinition_name getId _ _ Hnb) as [Hb1 Hb2].
    rewrite (compareNames_named _ _ _ _ Hc1 Hb1). unfold sortKey.
    rewrite Hc2, Hb2.
    rewrite (Hlower "Cherry"), (Hlower "banana") by ascii_text.
    rewrite !Hless by ascii_text. done.
Qed.

Lemma fetch_order_witness :
  let names := ["banana"; "Cherry"; "apple"; "Banana"] in
  let definition name :=
    effectDefinition Sample.getId (Sample.effect name "icon.svg") in
  _fetchStatusEffects Sample.getId Sample.findAny Sample.toLowerCase
    Sample.lessThan (Sample.settings "replace" names "alphabetical")
  = Normal [definition "apple"; definition "banana"; definition "Banana";
            definition "Cherry"]
  ∧ _fetchStatusEffects Sample.getId Sample.findAny Sample.toLowerCase
      Sample.lessThan (Sample.settings "replace" names "unsorted")
    = Normal [definition "banana"; definition "Cherry"; definition "apple";
              definition "Banana"]
  ∧ _fetchStatusEffects Sample.getId Sample.findEffectByName
      Sample.toLowerCase Sample.lessThan
      (Sample.settings "replace" ["Blinded"; "Ablaze"] "alphabetical")
    = Normal
        [effectDefinition Sample.getId (Sample.effect "Ablaze" "fire.svg");
         effectDefinition Sample.getId (Sample.effect "Blinded" "blind.svg")].
Proof.
  intros names definition.
  pose proof (fetch_order Sample.getId Sample.findAny Sample.toLowerCase
                Sample.lessThan
                (Sample.settings "replace" names "alphabetical"))
    as (Hsorted & _ & _).
  pose proof (fetch_order Sample.getId Sample.findAny Sample.toLowerCase
                Sample.lessThan (Sample.settings "replace" names "unsorted"))
    as (_ & Hunsorted & _).
  pose proof (fetch_order Sample.getId Sample.findEffectByName
                Sample.toLowerCase Sample.lessThan
                (Sample.settings "replace" ["Blinded"; "Ablaze"]
                   "alphabetical")) as (_ & _ & Hexample & _).
  split_and!.
  - destruct Hsorted as (sorted & Hrun & _);
      [reflexivity
      | repeat constructor; eexists; by vm_compute
      | exact ltb_strictTotal |].
    rewrite Hrun. vm_compute in Hrun. injection Hrun as <-. by vm_compute.
  - apply Hunsorted. by vm_compute.
  - apply (Hexample (Sample.effect "Blinded" "blind.svg")
             (Sample.effect "Ablaze" "fire.svg"));
      first [exact asciiPrimitives_sample | by vm_compute].
Defined.

(** ** The definitions the fetcher builds *)

(** The claim of C6 fails for an effect whose serialised fields have an
    [id]: the definition keeps that [id], not the derived one. *)
Lemma effectDefinition_id_counterexample :
  _fetchStatusEffects Sample.getId Sample.findEffectByName
      Sample.toLowerCase Sample.lessThan
    (Sample.settings "replace" ["Custom"] "unsorted")
  = Normal [effectDefinition Sample.getId Sample.effectWithId]
  ∧ effectDefinition Sample.getId Sample.effectWithId !! "id"
    = Some (VStr "own-id")
  ∧ Sample.getId (EffectLike.name Sample.effectWithId)
    = "Convenient Effect: Custom".
Proof. split_and!; by vm_compute. Qed.

(** C6, amended: the definitions the fetcher returns are those of the
    resolved effects, and the fields of a definition are the serialised
    fields of its effect, to which the derived id is added under [id] when
    the serialised fields have no [id]; a serialised [id], on the only key
    that can collide, takes precedence over the derived one. *)
Theorem effectDefinition_fields (getId : string → string)
    (findEffectByName : string → option EffectLike.t)
    (toLowerCase : string → string) (lessThan : string → string → bool)
    (settings : Settings.t) (fetched : list (gmap string value))
    (Hfetched :
       _fetchStatusEffects getId findEffectByName
           toLowerCase lessThan settings = Normal fetched) :
  fetched ≡ₚ effectDefinition getId <$> resolved findEffectByName settings
  ∧ ∀ d, d ∈ fetched →
      ∃ effect,
        effect ∈ resolved findEffectByName settings
        ∧ d = effectDefinition getId effect
        ∧ (∀ k v, EffectLike.toObject effect !! k = Some v → d !! k = Some v)
        ∧ (∀ k, k ≠ "id" → d !! k = EffectLike.toObject effect !! k)
        ∧ (EffectLike.toObject effect !! "id" = None →
           d !! "id" = Some (VStr (getId (EffectLike.name effect)))).
Proof.
  pose proof (fetch_perm _ _ _ _ _ _ Hfetched) as Hperm. split; [done|].
  intros d Hd. rewrite Hperm in Hd.
  apply list_elem_of_fmap in Hd as (effect & -> & Hin).
  exists effect. split_and!; try done.
  - intros k v Hk. by rewrite effectDefinition_lookup, Hk.
  - intros k Hk. rewrite effectDefinition_lookup.
    destruct (EffectLike.toObject effect !! k); [done|].
    by rewrite decide_False.
  - intros Hid. by rewrite effectDefinition_lookup, Hid.
Qed.

Lemma effectDefinition_fields_witness :
  [effectDefinition Sample.getId (Sample.effect "Blinded" "blind.svg")]
  ≡ₚ effectDefinition Sample.getId
       <$> resolved Sample.findEffectByName
             (Sample.settings "replace" ["Blinded"; "Unknown"] "unsorted").
Proof.
  apply (effectDefinition_fields Sample.getId Sample.findEffectByName
           Sample.toLowerCase Sample.lessThan
           (Sample.settings "replace" ["Blinded"; "Unknown"] "unsorted")
           [effectDefinition Sample.getId
              (Sample.effect "Blinded" "blind.svg")]).
  reflexivity.
Defined.

(** ** The initialiser *)

Section Initialize.

Variable getId : string → string.
Variable findEffectByName : string → option EffectLike.t.
Variable toLowerCase : string → string.
Variable lessThan : string → string → bool.

Lemma initialize_replace (settings : Settings.t)
    (catalog : list (gmap string value)) :
  Settings.modifyStatusEffects settings = "replace" →
  initialize getId findEffectByName toLowerCase lessThan settings catalog
  = _fetchStatusEffects getId findEffectByName toLowerCase lessThan settings.
Proof. intros Hmode. unfold initialize. by rewrite Hmode. Qed.

Lemma initialize_add (settings : Settings.t)
    (catalog fetched : list (gmap string value)) :
  Settings.modifyStatusEffects settings = "add" →
  _fetchStatusEffects getId findEffectByName
      toLowerCase lessThan settings = Normal fetched →
  initialize getId findEffectByName toLowerCase lessThan settings catalog
  = Normal (catalog ++ fetched)%list.
Proof. intros Hmode Hf. unfold initialize. by rewrite Hmode, Hf. Qed.

Lemma initialize_other (settings : Settings.t)
    (catalog : list (gmap string value)) :
  Settings.modifyStatusEffects settings ≠ "replace" →
  Settings.modifyStatusEffects settings ≠ "add" →
  initialize getId findEffectByName
      toLowerCase lessThan settings catalog = Normal catalog.
Proof.
  intros Hr%String.eqb_neq Ha%String.eqb_neq. unfold initialize.
  by rewrite Hr, Ha.
Qed.

End Initialize.

(** C2: after [initialize], under the mode ["none"] the catalog is the one
    there was; under ["replace"] it is the sequence the fetcher returns;
    under ["add"] it is the entries there were, in their order, followed by
    the sequence the fetcher returns, in its order.  The fetcher returns
    whenever the sort order is not alphabetical or every definition has a
    string name. *)
Theorem initialize_modes (getId : string → string)
    (findEffectByName : string → option EffectLike.t)
    (toLowerCase : string → string) (lessThan : string → string → bool)
    (settings : Settings.t) (catalog : list (gmap string value)) :
  (Settings.modifyStatusEffects settings = "none" →
   initialize getId findEffectByName
       toLowerCase lessThan settings catalog = Normal catalog)
  ∧ (Settings.modifyStatusEffects settings = "replace" →
     ∀ fetched,
       _fetchStatusEffects getId findEffectByName
           toLowerCase lessThan settings = Normal fetched →
       initialize getId findEffectByName
           toLowerCase lessThan settings catalog = Normal fetched)
  ∧ (Settings.modifyStatusEffects settings = "add" →
     ∀ fetched,
       _fetchStatusEffects getId findEffectByName
           toLowerCase lessThan settings = Normal fetched →
       initialize getId findEffectByName toLowerCase lessThan settings catalog
       = Normal (catalog ++ fetched)%list)
  ∧ (Settings.statusEffectsSortOrder settings ≠ "alphabetical"
     ∨ Forall named
         (effectDefinition getId <$> resolved findEffectByName settings) →
     ∃ fetched,
       _fetchStatusEffects getId findEffectByName
           toLowerCase lessThan settings = Normal fetched).
Proof.
  split_and!.
  - intros Hmode. apply initialize_other; by rewrite Hmode.
  - intros Hmode fetched Hf. by rewrite initialize_replace.
  - intros Hmode fetched Hf. by apply initialize_add.
  - apply fetch_returns.
Qed.

Lemma initialize_modes_witness :
  let host := [Sample.entry "dead" "skull.svg"] in
  let names := ["Blinded"; "Ablaze"] in
  let ablaze :=
    effectDefinition Sample.getId (Sample.effect "Ablaze" "fire.svg") in
  let blinded :=
    effectDefinition Sample.getId (Sample.effect "Blinded" "blind.svg") in
  initialize Sample.getId Sample.findEffectByName
      Sample.toLowerCase Sample.lessThan
    (Sample.settings "none" names "alphabetical") host = Normal host
  ∧ initialize Sample.getId Sample.findEffectByName
      Sample.toLowerCase Sample.lessThan
      (Sample.settings "replace" names "alphabetical") host
    = Normal [ablaze; blinded]
  ∧ initialize Sample.getId Sample.findEffectByName
      Sample.toLowerCase Sample.lessThan
      (Sample.settings "add" names "alphabetical") host
    = Normal [Sample.entry "dead" "skull.svg"; ablaze; blinded].
Proof.
  intros host names ablaze blinded. split_and!.
  - destruct (initialize_modes Sample.getId Sample.findEffectByName
           Sample.toLowerCase Sample.lessThan
                (Sample.settings "none" names "alphabetical") host)
      as (Hnone & _).
    by apply Hnone.
  - destruct (initialize_modes Sample.getId Sample.findEffectByName
           Sample.toLowerCase Sample.lessThan
                (Sample.settings "replace" names "alphabetical") host)
      as (_ & Hreplace & _).
    apply Hreplace; [reflexivity | by vm_compute].
  - destruct (initialize_modes Sample.getId Sample.findEffectByName
           Sample.toLowerCase Sample.lessThan
                (Sample.settings "add" names "alphabetical") host)
      as (_ & _ & Hadd & _).
    apply (Hadd eq_refl [ablaze; blinded]). by vm_compute.
Defined.

(** The claim of C7 fails for a name configured twice: both definitions
    are in the catalog, with the same id. *)
Lemma initialize_unique_counterexample :
  let d :=
    effectDefinition Sample.getId (Sample.effect "Blinded" "blind.svg") in
  initialize Sample.getId Sample.findEffectByName
      Sample.toLowerCase Sample.lessThan
    (Sample.settings "replace" ["Blinded"; "Blinded"] "unsorted") []
  = Normal [d; d]
  ∧ idOf d = VStr "Convenient Effect: Blinded"
  ∧ ¬ NoDup (idOf <$> [d; d]).
Proof.
  split_and!; [by vm_compute | by vm_compute |].
  intros Hnodup. apply NoDup_cons in Hnodup as [Hnotin _].
  apply Hnotin. by left.
Qed.

(** C7, amended: [initialize] discards no entry.  The catalog it leaves
    holds, in some order, the definitions of all the configured names that
    resolve under ["replace"], the original entries and those definitions
    under ["add"], and the original entries otherwise; so the ids of the
    catalog are pairwise distinct exactly when the ids of these entries
    are. *)
Theorem initialize_keeps_all (getId : string → string)
    (findEffectByName : string → option EffectLike.t)
    (toLowerCase : string → string) (lessThan : string → string → bool)
    (settings : Settings.t) (catalog catalog' : list (gmap string value))
    (Hrun :
       initialize getId findEffectByName
           toLowerCase lessThan settings catalog = Normal catalog') :
  let definitions :=
    effectDefinition getId <$> resolved findEffectByName settings in
  let placed :=
    if String.eqb (Settings.modifyStatusEffects settings) "replace"
    then definitions
    else if String.eqb (Settings.modifyStatusEffects settings) "add"
         then (catalog ++ definitions)%list
         else catalog in
  catalog' ≡ₚ placed
  ∧ length catalog' = length placed
  ∧ (NoDup (idOf <$> catalog') ↔ NoDup (idOf <$> placed)).
Proof.
  intros definitions placed.
  assert (catalog' ≡ₚ placed) as Hperm.
  { subst placed definitions. unfold initialize in Hrun.
    destruct (String.eqb (Settings.modifyStatusEffects settings) "replace").
    - by apply (fetch_perm _ _ toLowerCase lessThan).
    - destruct (String.eqb (Settings.modifyStatusEffects settings) "add").
      + destruct (_fetchStatusEffects getId findEffectByName
          toLowerCase lessThan settings)
          as [fetched|] eqn:Hf; simpl in Hrun; [|done].
        injection Hrun as <-. by rewrite (fetch_perm _ _ _ _ _ _ Hf).
      + by injection Hrun as <-. }
  split_and!; [done | by rewrite Hperm | by rewrite Hperm].
Qed.

Lemma initialize_keeps_all_witness :
  length [Sample.entry "dead" "skull.svg";
          effectDefinition Sample.getId (Sample.effect "Blinded" "blind.svg");
          effectDefinition Sample.getId (Sample.effect "Blinded" "blind.svg")]
  = length
      ([Sample.entry "dead" "skull.svg"]
       ++ (effectDefinition Sample.getId
             <$> resolved Sample.findEffectByName
                   (Sample.settings "add" ["Blinded"; "Blinded"]
                      "unsorted")))%list.
Proof.
  apply (initialize_keeps_all Sample.getId Sample.findEffectByName
           Sample.toLowerCase Sample.lessThan
           (Sample.settings "add" ["Blinded"; "Blinded"] "unsorted")
           [Sample.entry "dead" "skull.svg"]
           [Sample.entry "dead" "skull.svg";
            effectDefinition Sample.getId
              (Sample.effect "Blinded" "blind.svg");
            effectDefinition Sample.getId
              (Sample.effect "Blinded" "blind.svg")]).
  by vm_compute.
Defined.

(** * Further properties *)

(** ** The toggle interceptor: faults and what is never called *)

(** X1: when the status id cannot be read as a string (no argument, an
    event without [currentTarget] or [dataset], or a [statusId] that is
    missing or not a string), [onToggleEffect] throws before it calls
    anything: the event is not suppressed and neither [toggleEffect] nor the
    wrapper is called. *)
Theorem onToggleEffect_malformed (token : Token.t) (args : list value)
    (Hid : ∀ s, statusIdOf (arg args 0) ≠ Normal (VStr s)) :
  onToggleEffect token args = ([], Throw).
Proof.
  unfold onToggleEffect.
  destruct (statusIdOf (arg args 0)) as [[| | | |s|]|]; try done.
  by destruct (Hid s).
Qed.

Lemma onToggleEffect_malformed_witness :
  onToggleEffect (Sample.token [] [] None) [] = ([], Throw)
  ∧ onToggleEffect (Sample.token [] [] None)
      [VObj {[ "currentTarget" := VObj {[ "dataset" := VObj ∅ ]} ]}]
    = ([], Throw).
Proof.
  split; apply onToggleEffect_malformed; intros s; by vm_compute.
Defined.

(** X2: for a status id with the reserved prefix on a token without actor,
    the default action and the propagation of the event are suppressed and
    then [token.actor.uuid] throws: [toggleEffect] is not called, and
    neither is the wrapper. *)
Theorem onToggleEffect_without_actor (token : Token.t) (args : list value)
    (statusEffectId : string)
    (Hid : statusIdOf (arg args 0) = Normal (VStr statusEffectId))
    (Hprefix : startsWith statusEffectId "Convenient Effect: " = true)
    (Hactor : Token.actor token = None) :
  onToggleEffect token args = ([PreventDefault; StopPropagation], Throw).
Proof. unfold onToggleEffect. by rewrite Hid, Hprefix, Hactor. Qed.

Lemma onToggleEffect_without_actor_witness :
  onToggleEffect
    {| Token.actor := None;
       Token.document := {| TokenDocument.effects := [];
                            TokenDocument.overlayEffect := None |} |}
    [Sample.event "Convenient Effect: Blinded"]
  = ([PreventDefault; StopPropagation], Throw).
Proof.
  apply (onToggleEffect_without_actor _ _ "Convenient Effect: Blinded");
    by vm_compute.
Defined.

(** X3: in every run of [onToggleEffect] the wrapper and [toggleEffect]
    exclude each other.  If the wrapper is called, it is called once, with
    the arguments received, nothing else is called and the status id does
    not start with the prefix; if [toggleEffect] is called, it is called
    once, after the event was suppressed, with exactly one uuid, that of
    the actor of the token. *)
Theorem onToggleEffect_exclusive (token : Token.t) (args : list value) :
  let trace := (onToggleEffect token args).1 in
  (∀ a, CallWrapper a ∈ trace →
     trace = [CallWrapper args]
     ∧ (onToggleEffect token args).2 = Normal ()
     ∧ ∃ s, statusIdOf (arg args 0) = Normal (VStr s)
            ∧ startsWith s "Convenient Effect: " = false)
  ∧ (∀ effectName overlay uuids,
       ToggleEffect effectName overlay uuids ∈ trace →
       trace = [PreventDefault; StopPropagation;
                ToggleEffect effectName overlay uuids]
       ∧ ∃ actor, Token.actor token = Some actor
                  ∧ uuids = [Actor.uuid actor])
  ∧ (PreventDefault ∈ trace ↔ StopPropagation ∈ trace).
Proof.
  unfold onToggleEffect.
  destruct (statusIdOf (arg args 0)) as [[| | | |s|]|] eqn:Hid; simpl;
    try (split_and!; [by intros ? ?%elem_of_nil | by intros ? ? ? ?%elem_of_nil
                     | by split; intros ?%elem_of_nil]).
  destruct (startsWith s "Convenient Effect: ") eqn:Hprefix.
  - destruct (Token.actor token) as [actor|]; simpl.
    + split_and!.
      * intros a Hin. repeat (apply elem_of_cons in Hin as [[=]|Hin]).
        by apply elem_of_nil in Hin.
      * intros n o u Hin. repeat (apply elem_of_cons in Hin as [Heq|Hin]);
          try done; [|by apply elem_of_nil in Hin].
        injection Heq as -> -> ->. split; [done|]. by exists actor.
      * split; intros _; [by right; left | by left].
    + split_and!.
      * intros a Hin. repeat (apply elem_of_cons in Hin as [[=]|Hin]).
        by apply elem_of_nil in Hin.
      * intros n o u Hin. repeat (apply elem_of_cons in Hin as [[=]|Hin]).
        by apply elem_of_nil in Hin.
      * split; intros _; [by right; left | by left].
  - simpl. split_and!.
    + intros a _. split_and!; try done. by exists s.
    + intros n o u Hin. apply elem_of_cons in Hin as [[=]|Hin].
      by apply elem_of_nil in Hin.
    + split; intros Hin; apply elem_of_cons in Hin as [[=]|Hin];
        by apply elem_of_nil in Hin.
Qed.

Lemma onToggleEffect_exclusive_witness :
  (onToggleEffect (Sample.token [] [] None) [Sample.event "dead"; VNull]).1
  = [CallWrapper [Sample.event "dead"; VNull]].
Proof.
  destruct (onToggleEffect_exclusive (Sample.token [] [] None)
              [Sample.event "dead"; VNull]) as (Hwrapper & _).
  apply (Hwrapper [Sample.event "dead"; VNull]). by left.
Defined.

(** X4: the overlay option handed to [toggleEffect] is [false] when at
    most one argument was passed; otherwise it is the [overlay] property of
    the second argument as it is, not coerced to a boolean, and [undefined]
    when the second argument is [null], [undefined], a primitive or an
    object without that property.  It is truthy only for an object with a
    truthy [overlay]. *)
Theorem overlayOption_cases (args : list value) :
  ((List.length args ≤ 1)%nat → overlayOption args = VBool false)
  ∧ (∀ event o rest, args = event :: VObj o :: rest →
       overlayOption args = default VUndefined (o !! "overlay"))
  ∧ (∀ event second rest, args = event :: second :: rest →
       (∀ o, second ≠ VObj o) → overlayOption args = VUndefined)
  ∧ (truthy (overlayOption args) = true →
     ∃ event o rest v,
       args = event :: VObj o :: rest ∧ o !! "overlay" = Some v
       ∧ truthy v = true ∧ overlayOption args = v).
Proof.
  split_and!.
  - intros Hlen. unfold overlayOption.
    destruct args as [|? [|? ?]]; simpl in *; [done | done | lia].
  - by intros event o rest ->.
  - intros event second rest -> Hsecond.
    destruct second; try done. by destruct (Hsecond o).
  - destruct args as [|event [|second rest]]; try done.
    destruct second as [| | | | |o]; try done.
    unfold overlayOption, arg, get_prop_opt. simpl.
    destruct (o !! "overlay") as [v|] eqn:Hv; simpl; [|done].
    intros Hv'. by exists event, o, rest, v.
Qed.

Lemma overlayOption_cases_witness :
  overlayOption [Sample.event "dead"] = VBool false
  ∧ overlayOption [Sample.event "dead"; VObj {[ "overlay" := VNum 1 ]}]
    = VNum 1
  ∧ overlayOption [Sample.event "dead"; VNull] = VUndefined.
Proof.
  split_and!.
  - apply overlayOption_cases. simpl. lia.
  - destruct (overlayOption_cases
                [Sample.event "dead"; VObj {[ "overlay" := VNum 1 ]}])
      as (_ & Hobj & _).
    by rewrite (Hobj (Sample.event "dead") {[ "overlay" := VNum 1 ]} []).
  - destruct (overlayOption_cases [Sample.event "dead"; VNull])
      as (_ & _ & Hnull & _).
    by apply (Hnull (Sample.event "dead") VNull []).
Defined.

(** ** The statuses of the actor: what the map holds *)

Lemma foldl_recordStatuses_from (obj : gmap string StatusRecord.t)
    (l : list ActiveEffect.t) (k : string) (r : StatusRecord.t) :
  foldl recordStatuses obj l !! k = Some r →
  obj !! k = Some r
  ∨ ∃ effect, effect ∈ l ∧ k ∈ ActiveEffect.statuses effect
              ∧ r = {| StatusRecord.id := k;
                       StatusRecord.overlay :=
                         truthy (ActiveEffect.overlayFlag effect) |}.
Proof.
  revert obj. induction l as [|e l IH]; intros obj; simpl; [by left|].
  intros [Hk|(effect & ? & ? & ?)]%IH.
  - rewrite recordStatuses_lookup in Hk. case_bool_decide; [|by left].
    right. exists e. split_and!; [by left | done | congruence].
  - right. exists effect. split_and!; [by right | done | done].
Qed.

(** X5: the status map built from the actor has no record for an id that no
    active effect declares (and none at all without an actor); a record it
    has is stored under its own id and carries the overlay flag, coerced to
    a boolean, of an effect that declares the id. *)
Theorem actorStatuses_records (actor : option Actor.t) (k : string) :
  (actorStatuses actor !! k = None ↔ ¬ declares actor k)
  ∧ (∀ r, actorStatuses actor !! k = Some r →
       StatusRecord.id r = k
       ∧ ∃ a effect,
           actor = Some a ∧ effect ∈ Actor.effects a
           ∧ k ∈ ActiveEffect.statuses effect
           ∧ StatusRecord.overlay r
             = truthy (ActiveEffect.overlayFlag effect))
  ∧ actorStatuses None = ∅.
Proof.
  split_and!; [| |done].
  - rewrite <-actorStatuses_is_Some, <-not_eq_None_Some.
    split; [by intros ? ? | apply dec_stable].
  - intros r Hr. split; [by eapply actorStatuses_id|].
    destruct actor as [a|]; simpl in Hr; [|by rewrite lookup_empty in Hr].
    apply foldl_recordStatuses_from in Hr as [Hr|(effect & ? & ? & ->)];
      [by rewrite lookup_empty in Hr|].
    by exists a, effect.
Qed.

Lemma actorStatuses_records_witness :
  actorStatuses (Some (Sample.actor [Sample.status ["prone"] (VNum 1)]))
    !! "blinded" = None.
Proof.
  apply (actorStatuses_records
           (Some (Sample.actor [Sample.status ["prone"] (VNum 1)]))
           "blinded").
  intros (a & effect & [= <-] & Hin & Hk). simpl in Hin.
  apply list_elem_of_singleton in Hin as ->. simpl in Hk.
  by apply list_elem_of_singleton in Hk.
Defined.

(** ** The choice mapping: its entries *)

(** X6: for a token without actor no status is read from effects: an entry
    of the choice mapping is active exactly when the effects of the token
    document contain its [src], and an overlay exactly when the overlay
    effect of the token document is its [src]. *)
Theorem choices_without_actor (localize : value → string)
    (settings : Settings.t) (catalog : list (gmap string value))
    (token : Token.t) (wrapper : list value → gmap string StatusChoice.t)
    (args : list value)
    (Hmode : Settings.modifyStatusEffects settings ≠ "none")
    (Hactor : Token.actor token = None) :
  ∀ k c,
    getStatusEffectChoices localize settings catalog token wrapper args !! k
    = Some c →
    (StatusChoice.isActive c = true
     ↔ ∃ s, StatusChoice.src c = VStr s
            ∧ s ∈ TokenDocument.effects (Token.document token))
    ∧ (StatusChoice.isOverlay c = true
       ↔ ∃ s, StatusChoice.src c = VStr s
              ∧ TokenDocument.overlayEffect (Token.document token) = Some s).
Proof.
  intros k c. rewrite getStatusEffectChoices_built by done. rewrite Hactor.
  intros (_ & _ & e & _ & _ & _ & _ & ->)%foldl_addChoice_origin.
  split.
  - rewrite (choiceOf_isActive localize _ None). split; [|by right].
    intros [[_ (? & ? & [=] & _)]|?]; done.
  - rewrite choiceOf_isOverlay. split; [|by right].
    intros [(? & Hr & _)|?]; [|done]. simpl in Hr.
    by rewrite lookup_empty in Hr.
Qed.

Lemma choices_without_actor_witness :
  let c :=
    {| StatusChoice.id := VStr "dead";
       StatusChoice.title := None;
       StatusChoice.src := VStr "skull.svg";
       StatusChoice.isActive := true;
       StatusChoice.isOverlay := false;
       StatusChoice.cssClass := "active" |} in
  (StatusChoice.isActive c = true
   ↔ ∃ s, StatusChoice.src c = VStr s ∧ s ∈ ["skull.svg"])
  ∧ (StatusChoice.isOverlay c = true
     ↔ ∃ s, StatusChoice.src c = VStr s ∧ None = Some s).
Proof.
  intros c.
  apply (choices_without_actor Sample.localize
           (Sample.settings "add" [] "unsorted")
           [Sample.entry "dead" "skull.svg"]
           {| Token.actor := None;
              Token.document := {| TokenDocument.effects := ["skull.svg"];
                                   TokenDocument.overlayEffect := None |} |}
           (λ _, ∅) [] ltac:(by vm_compute) eq_refl "dead" c).
  by vm_compute.
Defined.

(** X7: every entry of the choice mapping has an [id] and a [src] that are
    neither [null] nor [undefined] (an absent id is recorded as [""], an
    absent icon as the candidate itself), a title exactly when the name of
    its candidate is truthy, and as class the one of [""], ["active"],
    ["overlay"] and ["active overlay"] that spells its two flags. *)
Theorem choices_entries_well_formed (localize : value → string)
    (settings : Settings.t) (catalog : list (gmap string value))
    (token : Token.t) (wrapper : list value → gmap string StatusChoice.t)
    (args : list value)
    (Hmode : Settings.modifyStatusEffects settings ≠ "none") :
  ∀ k c,
    getStatusEffectChoices localize settings catalog token wrapper args !! k
    = Some c →
    nullish (StatusChoice.id c) = false
    ∧ nullish (StatusChoice.src c) = false
    ∧ (k ≠ to_key (StatusChoice.id c) →
       StatusChoice.id c = VStr "" ∧ (k = "undefined" ∨ k = "null"))
    ∧ StatusChoice.cssClass c
      = match StatusChoice.isActive c, StatusChoice.isOverlay c with
        | true, true => "active overlay"
        | true, false => "active"
        | false, true => "overlay"
        | false, false => ""
        end.
Proof.
  intros k c. rewrite getStatusEffectChoices_built by done.
  intros (_ & _ & e & _ & _ & <- & _ & ->)%foldl_addChoice_origin.
  split_and!.
  - simpl. unfold coalesce. by destruct (field e "id").
  - simpl. unfold srcOf, coalesce.
    destruct (field e "icon"); try done; by destruct e.
  - simpl. unfold keyOf, coalesce.
    destruct (field e "id") as [| |[]| | |]; simpl; try done.
    + intros _. split; [done | by left].
    + intros _. split; [done | by right].
  - apply choiceOf_cssClass.
Qed.

Lemma choices_entries_well_formed_witness :
  let c :=
    {| StatusChoice.id := VStr "";
       StatusChoice.title := None;
       StatusChoice.src := VStr "a.png";
       StatusChoice.isActive := true;
       StatusChoice.isOverlay := false;
       StatusChoice.cssClass := "active" |} in
  nullish (StatusChoice.id c) = false
  ∧ nullish (StatusChoice.src c) = false
  ∧ ("undefined" ≠ to_key (StatusChoice.id c) →
     StatusChoice.id c = VStr ""
     ∧ ("undefined" = "undefined" ∨ "undefined" = "null"))
  ∧ StatusChoice.cssClass c = "active".
Proof.
  intros c.
  apply (choices_entries_well_formed Sample.localize
           (Sample.settings "replace" [] "unsorted")
           [Sample.entry "dead" "skull.svg"] (Sample.token [] ["a.png"] None)
           (λ _, ∅) [] ltac:(by vm_compute) "undefined" c).
  by vm_compute.
Defined.

Lemma foldl_addChoice_size (localize : value → string)
    (doc : TokenDocument.t) (statuses : gmap string StatusRecord.t)
    (l : list candidate) (obj : gmap string StatusChoice.t) :
  (size (foldl (addChoice localize doc statuses) obj l)
   ≤ size obj + List.length l)%nat.
Proof.
  revert obj. induction l as [|e l IH]; intros obj; simpl; [lia|].
  pose proof (IH (addChoice localize doc statuses obj e)) as Hl.
  assert (size (addChoice localize doc statuses obj e) ≤ S (size obj))%nat
    as He; [|lia].
  rewrite addChoice_eq. destruct (hasProperty obj (keyOf e)); [lia|].
  rewrite map_size_insert. case_match; unfold id; lia.
Qed.

Lemma foldl_addChoice_same_key (localize : value → string)
    (doc : TokenDocument.t) (statuses : gmap string StatusRecord.t)
    (l : list candidate) (obj : gmap string StatusChoice.t) (k : string) :
  (∀ e, e ∈ l → keyOf e = k) →
  (size (foldl (addChoice localize doc statuses) obj l) ≤ S (size obj))%nat
  ∧ (is_Some (obj !! k) →
     foldl (addChoice localize doc statuses) obj l = obj).
Proof.
  revert obj. induction l as [|e l IH]; intros obj Hl; simpl.
  - split; [lia | done].
  - assert (keyOf e = k) as Hk by (apply Hl; by left).
    assert (∀ e', e' ∈ l → keyOf e' = k) as Hl'
      by (intros; apply Hl; by right).
    rewrite addChoice_eq, Hk. destruct (hasProperty obj k) eqn:Hin.
    + apply IH, Hl'.
    + apply hasProperty_false in Hin as [Hnone _].
      split; [|by intros [? ?]; congruence].
      destruct (IH (<[k:=choiceOf localize doc statuses e]> obj) Hl')
        as [_ Hsame].
      rewrite Hsame by (rewrite lookup_insert_eq; by eexists).
      rewrite map_size_insert. case_match; unfold id; lia.
Qed.

(** X8: the effects of the token document and its overlay effect are icon
    paths without an [id], so they all fall under the one key
    ["undefined"]: every key of the choice mapping is the key of a catalog
    entry or ["undefined"], and the mapping has at most one entry more than
    the catalog has, however many effects the token document lists. *)
Theorem choices_token_effects_share_key (localize : value → string)
    (settings : Settings.t) (catalog : list (gmap string value))
    (token : Token.t) (wrapper : list value → gmap string StatusChoice.t)
    (args : list value)
    (Hmode : Settings.modifyStatusEffects settings ≠ "none") :
  let result :=
    getStatusEffectChoices localize settings catalog token wrapper args in
  (∀ k c, result !! k = Some c →
     (∃ o, o ∈ catalog ∧ k = keyOf (Effect o)) ∨ k = "undefined")
  ∧ (size result ≤ S (List.length catalog))%nat.
Proof.
  intros result. subst result. rewrite getStatusEffectChoices_built by done.
  split.
  - intros k c (_ & before & e & after & Hl & <- & _)%foldl_addChoice_origin.
    assert (e ∈ candidates catalog (Token.document token)) as Hin.
    { rewrite Hl. apply elem_of_app. right. by left. }
    unfold candidates in Hin.
    apply elem_of_app in Hin as [Hin|Hin];
      apply list_elem_of_fmap in Hin as (x & -> & Hx); [|by right].
    left. by exists x.
  - unfold candidates. rewrite foldl_app.
    set (doc := Token.document token).
    set (statuses := actorStatuses (Token.actor token)).
    destruct (foldl_addChoice_same_key localize doc statuses
                (Icon <$> tokenEffects doc)
                (foldl (addChoice localize doc statuses) ∅
                   (Effect <$> catalog)) "undefined") as [Hsize _].
    { by intros e (p & -> & _)%list_elem_of_fmap. }
    pose proof (foldl_addChoice_size localize doc statuses
                  (Effect <$> catalog) ∅) as Hcat.
    rewrite map_size_empty, length_fmap in Hcat. lia.
Qed.

Lemma choices_token_effects_share_key_witness :
  (size (getStatusEffectChoices Sample.localize
           (Sample.settings "add" [] "unsorted")
           [Sample.entry "dead" "skull.svg"]
           (Sample.token [] ["a.png"; "b.png"; "c.png"] (Some "d.png"))
           (λ _, ∅) [])
   ≤ 2)%nat.
Proof.
  apply (choices_token_effects_share_key Sample.localize
           (Sample.settings "add" [] "unsorted")
           [Sample.entry "dead" "skull.svg"]
           (Sample.token [] ["a.png"; "b.png"; "c.png"] (Some "d.png"))
           (λ _, ∅) []).
  by vm_compute.
Defined.

(** ** The fetcher: missing effects, faults and the comparison *)

Lemma length_omap_filter {A B} (f : A → option B) (l : list A) :
  List.length (omap f l) = List.length (filter (λ x, is_Some (f x)) l).
Proof.
  induction l as [|x l IH]; [done|].
  rewrite filter_cons. simpl. destruct (f x) as [y|] eqn:Hx.
  - rewrite decide_True by (by eexists). simpl. f_equal. exact IH.
  - rewrite decide_False by (by intros [? [=]]). exact IH.
Qed.

(** X9: a configured name that the finder does not resolve is dropped
    without a fault: the fetcher returns one definition per name that
    resolves, so never more than there are names, and the empty sequence,
    under either sort order, when no name resolves. *)
Theorem fetch_drops_unresolved (getId : string → string)
    (findEffectByName : string → option EffectLike.t)
    (toLowerCase : string → string) (lessThan : string → string → bool)
    (settings : Settings.t) :
  (∀ fetched,
     _fetchStatusEffects getId findEffectByName
         toLowerCase lessThan settings = Normal fetched →
     List.length fetched
     = List.length (filter (λ name, is_Some (findEffectByName name))
                      (Settings.statusEffectNames settings))
     ∧ (List.length fetched
        ≤ List.length (Settings.statusEffectNames settings))%nat)
  ∧ ((∀ name, name ∈ Settings.statusEffectNames settings →
        findEffectByName name = None) →
     _fetchStatusEffects getId findEffectByName
         toLowerCase lessThan settings = Normal []).
Proof.
  split.
  - intros fetched Hf%fetch_perm.
    assert (List.length fetched
            = List.length (filter (λ name, is_Some (findEffectByName name))
                             (Settings.statusEffectNames settings))) as Hlen.
    { rewrite Hf, length_fmap. apply length_omap_filter. }
    split; [done|]. rewrite Hlen. apply length_filter.
  - intros Hnone.
    assert (omap findEffectByName (Settings.statusEffectNames settings) = [])
      as Hempty.
    { induction (Settings.statusEffectNames settings) as [|n l IH]; [done|].
      simpl. rewrite (Hnone n) by (by left).
      apply IH. intros; apply Hnone; by right. }
    unfold _fetchStatusEffects. rewrite Hempty. simpl. by case_match.
Qed.

Lemma fetch_drops_unresolved_witness :
  _fetchStatusEffects Sample.getId Sample.findEffectByName
      Sample.toLowerCase Sample.lessThan
    (Sample.settings "replace" ["Unknown"; "Removed"] "alphabetical")
  = Normal [].
Proof.
  apply (fetch_drops_unresolved Sample.getId Sample.findEffectByName
           Sample.toLowerCase Sample.lessThan
           (Sample.settings "replace" ["Unknown"; "Removed"] "alphabetical")).
  intros name Hin. simpl in Hin.
  apply elem_of_cons in Hin as [->|Hin]; [done|].
  by apply list_elem_of_singleton in Hin as ->.
Defined.

(** X10: under the alphabetical order the fetcher throws exactly when it
    has two or more definitions to sort and one of them has no string
    [name] (a single definition is returned without its name being read);
    under any other order it never throws. *)
Theorem fetch_throws (getId : string → string)
    (findEffectByName : string → option EffectLike.t)
    (toLowerCase : string → string) (lessThan : string → string → bool)
    (settings : Settings.t) :
  let definitions :=
    effectDefinition getId <$> resolved findEffectByName settings in
  (Settings.statusEffectsSortOrder settings = "alphabetical" →
   (_fetchStatusEffects getId findEffectByName
       toLowerCase lessThan settings = Throw
    ↔ (2 ≤ List.length definitions)%nat ∧ ¬ Forall named definitions))
  ∧ (Settings.statusEffectsSortOrder settings ≠ "alphabetical" →
     _fetchStatusEffects getId findEffectByName
         toLowerCase lessThan settings ≠ Throw).
Proof.
  intros definitions. split.
  - intros Horder. rewrite fetch_alphabetical by done. fold definitions.
    split.
    + intros Hthrow. split.
      * destruct definitions as [|x [|y l]]; simpl in *; try done. lia.
      * intros [r Hr]%(sort_named toLowerCase lessThan). congruence.
    + intros [Hlen Hnamed].
      destruct (sort (compareNames toLowerCase lessThan) definitions)
        as [r|] eqn:Hr; [|done].
      destruct Hnamed. by eapply sort_Normal_named.
  - intros Horder. by rewrite fetch_unsorted.
Qed.

Lemma fetch_throws_witness :
  _fetchStatusEffects Sample.getId
    (λ name, Some {| EffectLike.name := name;
                     EffectLike.toObject := {[ "label" := VStr name ]} |})
    Sample.toLowerCase Sample.lessThan
    (Sample.settings "replace" ["Blinded"; "Ablaze"] "alphabetical")
  = Throw
  ∧ _fetchStatusEffects Sample.getId
      (λ name, Some {| EffectLike.name := name;
                       EffectLike.toObject := {[ "label" := VStr name ]} |})
      Sample.toLowerCase Sample.lessThan
      (Sample.settings "replace" ["Blinded"; "Ablaze"] "unsorted")
    ≠ Throw.
Proof.
  split.
  - pose proof (fetch_throws Sample.getId
                  (λ name, Some {| EffectLike.name := name;
                                   EffectLike.toObject :=
                                     {[ "label" := VStr name ]} |})
                  Sample.toLowerCase Sample.lessThan
                  (Sample.settings "replace" ["Blinded"; "Ablaze"]
                     "alphabetical")) as [Hthrow _].
    apply Hthrow; [reflexivity|]. split; [simpl; lia|].
    intros Hnamed. apply Forall_cons in Hnamed as [[s Hs] _].
    by vm_compute in Hs.
  - pose proof (fetch_throws Sample.getId
                  (λ name, Some {| EffectLike.name := name;
                                   EffectLike.toObject :=
                                     {[ "label" := VStr name ]} |})
                  Sample.toLowerCase Sample.lessThan
                  (Sample.settings "replace" ["Blinded"; "Ablaze"]
                     "unsorted")) as [_ Hnever].
    apply Hnever. by vm_compute.
Defined.

(** X11: on two entries with string names the comparison function returns
    [-1], [0] or [1]; it returns [0] exactly when the lower-cased names are
    equal and [-1] exactly when the first lower-cased name is below the
    second, and swapping its arguments negates its result, so it is a
    consistent comparison for [sort].  On ASCII names it returns [0]
    exactly when the names are equal once [A] to [Z] are lowered. *)
Theorem compareNames_consistent (toLowerCase : string → string)
    (lessThan : string → string → bool) (a b : gmap string value)
    (Horder : strictTotal lessThan) (Ha : named a) (Hb : named b) :
  ∃ c,
    compareNames toLowerCase lessThan a b = Normal c
    ∧ (c = (-1)%Z ∨ c = 0%Z ∨ c = 1%Z)
    ∧ (c = 0%Z ↔ toLowerCase (nameOf a) = toLowerCase (nameOf b))
    ∧ (c = (-1)%Z
       ↔ lessThan (toLowerCase (nameOf a)) (toLowerCase (nameOf b)) = true)
    ∧ compareNames toLowerCase lessThan b a = Normal (- c)%Z
    ∧ (asciiPrimitives toLowerCase lessThan →
       isAscii (nameOf a) → isAscii (nameOf b) →
       (c = 0%Z ↔ lowerAscii (nameOf a) = lowerAscii (nameOf b))).
Proof.
  rewrite (compareNames_named _ _ a b), (compareNames_named _ _ b a) by done.
  unfold sortKey.
  set (ka := toLowerCase (nameOf a)). set (kb := toLowerCase (nameOf b)).
  assert (∀ c : Z, (c = 0%Z ↔ ka = kb) →
            asciiPrimitives toLowerCase lessThan →
            isAscii (nameOf a) → isAscii (nameOf b) →
            (c = 0%Z ↔ lowerAscii (nameOf a) = lowerAscii (nameOf b)))
    as Hascii.
  { intros c Hc [Hlower _] Haa Hab. subst ka kb.
    by rewrite (Hlower _ Haa), (Hlower _ Hab) in Hc. }
  destruct (lessThan ka kb) eqn:Hab.
  - rewrite (lessThan_asym _ Horder _ _ Hab).
    assert ((-1)%Z = 0%Z ↔ ka = kb) as Hzero.
    { split; [done|]. intros Heq.
      by rewrite Heq, (lessThan_irrefl _ Horder) in Hab. }
    eexists. split_and!; try done; [by left | by apply Hascii].
  - destruct (lessThan kb ka) eqn:Hba.
    + assert (1%Z = 0%Z ↔ ka = kb) as Hzero.
      { split; [done|]. intros Heq.
        by rewrite Heq, (lessThan_irrefl _ Horder) in Hba. }
      eexists. split_and!; try done; [by right; right | by apply Hascii].
    + assert (0%Z = 0%Z ↔ ka = kb) as Hzero.
      { split; [|done]. intros _.
        destruct (lessThan_total _ Horder ka kb) as [?|[?|?]]; congruence. }
      eexists. split_and!; try done; [by right; left | by apply Hascii].
Qed.

Lemma compareNames_consistent_witness :
  ∃ c,
    compareNames Sample.toLowerCase Sample.lessThan
      {[ "name" := VStr "ABLAZE" ]} {[ "name" := VStr "Ablaze" ]}
    = Normal c
    ∧ c = 0%Z.
Proof.
  destruct (compareNames_consistent Sample.toLowerCase Sample.lessThan
              {[ "name" := VStr "ABLAZE" ]} {[ "name" := VStr "Ablaze" ]})
    as (c & Hc & _ & _ & _ & _ & Hascii).
  - exact ltb_strictTotal.
  - by exists "ABLAZE".
  - by exists "Ablaze".
  - exists c. split; [exact Hc|].
    apply Hascii; [exact asciiPrimitives_sample | | | by vm_compute].
    + change (isAscii "ABLAZE"). ascii_text.
    + change (isAscii "Ablaze"). ascii_text.
Defined.

(** X12: definitions with string names that are already in the order of
    their lower-cased names come back from the sort in the order they were
    given. *)
Theorem sort_sorted_unchanged (toLowerCase : string → string)
    (lessThan : string → string → bool) (l : list (gmap string value))
    (Horder : strictTotal lessThan) (Hnamed : Forall named l)
    (Hsorted : StronglySorted (key_le toLowerCase lessThan) l) :
  sort (compareNames toLowerCase lessThan) l = Normal l.
Proof.
  induction Hsorted as [|x l Hsorted IH Hx]; [done|].
  apply Forall_cons in Hnamed as [Hnx Hnl].
  simpl. rewrite (IH Hnl). simpl.
  destruct l as [|y l']; [done|]. simpl.
  apply Forall_cons in Hnl as [Hny _], Hx as [Hxy _].
  destruct (compareNames_positive toLowerCase lessThan Horder x y Hnx Hny)
    as (c & Hc & Hpos).
  rewrite Hc. simpl. rewrite Hpos. unfold key_le, str_le in Hxy.
  by rewrite Hxy.
Qed.

Lemma sort_sorted_unchanged_witness :
  sort (compareNames Sample.toLowerCase Sample.lessThan)
    [{[ "name" := VStr "Ablaze" ]}; {[ "name" := VStr "blinded" ]};
     {[ "name" := VStr "Blinded" ]}; {[ "name" := VStr "Charmed" ]}]
  = Normal
      [{[ "name" := VStr "Ablaze" ]}; {[ "name" := VStr "blinded" ]};
       {[ "name" := VStr "Blinded" ]}; {[ "name" := VStr "Charmed" ]}].
Proof.
  apply sort_sorted_unchanged.
  - exact ltb_strictTotal.
  - repeat constructor; eexists; by vm_compute.
  - repeat constructor; by vm_compute.
Defined.

(** ** The initialiser: faults and repeated runs *)

(** X13: [initialize] throws exactly when the mode is ["replace"] or
    ["add"] and the fetcher throws; under any other mode the fetcher is not
    run and the catalog is returned as it is. *)
Theorem initialize_throws (getId : string → string)
    (findEffectByName : string → option EffectLike.t)
    (toLowerCase : string → string) (lessThan : string → string → bool)
    (settings : Settings.t) (catalog : list (gmap string value)) :
  (initialize getId findEffectByName
      toLowerCase lessThan settings catalog = Throw
   ↔ (Settings.modifyStatusEffects settings = "replace"
      ∨ Settings.modifyStatusEffects settings = "add")
     ∧ _fetchStatusEffects getId findEffectByName
         toLowerCase lessThan settings = Throw)
  ∧ (Settings.modifyStatusEffects settings ≠ "replace" →
     Settings.modifyStatusEffects settings ≠ "add" →
     initialize getId findEffectByName
         toLowerCase lessThan settings catalog = Normal catalog).
Proof.
  split; [|apply initialize_other].
  unfold initialize.
  destruct (String.eqb_spec (Settings.modifyStatusEffects settings) "replace")
    as [Hr|Hr].
  - split; [by intros ?; split; [left|] | by intros [_ ?]].
  - destruct (String.eqb_spec (Settings.modifyStatusEffects settings) "add")
      as [Ha|Ha].
    + destruct (_fetchStatusEffects getId findEffectByName
        toLowerCase lessThan settings);
        simpl; split; try done; [by intros [_ ?] | by intros _; split; [right|]].
    + split; [done | by intros [[?|?] _]].
Qed.

Lemma initialize_throws_witness :
  initialize Sample.getId
    (λ name, Some {| EffectLike.name := name; EffectLike.toObject := ∅ |})
    Sample.toLowerCase Sample.lessThan
    (Sample.settings "add" ["Blinded"; "Ablaze"] "alphabetical")
    [Sample.entry "dead" "skull.svg"]
  = Throw
  ∧ initialize Sample.getId
      (λ name, Some {| EffectLike.name := name; EffectLike.toObject := ∅ |})
      Sample.toLowerCase Sample.lessThan
      (Sample.settings "none" ["Blinded"; "Ablaze"] "alphabetical")
      [Sample.entry "dead" "skull.svg"]
    = Normal [Sample.entry "dead" "skull.svg"].
Proof.
  split.
  - apply (initialize_throws Sample.getId
             (λ name, Some {| EffectLike.name := name;
                              EffectLike.toObject := ∅ |})
             Sample.toLowerCase Sample.lessThan
             (Sample.settings "add" ["Blinded"; "Ablaze"] "alphabetical")
             [Sample.entry "dead" "skull.svg"]).
    split; [by right | by vm_compute].
  - apply (initialize_throws Sample.getId
             (λ name, Some {| EffectLike.name := name;
                              EffectLike.toObject := ∅ |})
             Sample.toLowerCase Sample.lessThan
             (Sample.settings "none" ["Blinded"; "Ablaze"] "alphabetical")
             [Sample.entry "dead" "skull.svg"]); by vm_compute.
Defined.

(** X14: running [initialize] again does not pile up under ["replace"],
    where the result does not depend on the catalog it finds, but under
    ["add"] it appends the fetched definitions a second time. *)
Theorem initialize_twice (getId : string → string)
    (findEffectByName : string → option EffectLike.t)
    (toLowerCase : string → string) (lessThan : string → string → bool)
    (settings : Settings.t) :
  (Settings.modifyStatusEffects settings = "replace" →
   ∀ catalog catalog',
     initialize getId findEffectByName toLowerCase lessThan settings catalog
     = initialize getId findEffectByName toLowerCase lessThan settings catalog')
  ∧ (Settings.modifyStatusEffects settings = "add" →
     ∀ catalog fetched,
       _fetchStatusEffects getId findEffectByName
           toLowerCase lessThan settings = Normal fetched →
       ∃ once,
         initialize getId findEffectByName
             toLowerCase lessThan settings catalog = Normal once
         ∧ initialize getId findEffectByName toLowerCase lessThan settings once
           = Normal (catalog ++ fetched ++ fetched)%list).
Proof.
  split.
  - intros Hmode catalog catalog'. by rewrite !initialize_replace.
  - intros Hmode catalog fetched Hf. exists (catalog ++ fetched)%list.
    split; [by apply initialize_add|].
    rewrite (initialize_add _ _ _ _ _ _ fetched) by done.
    by rewrite <-app_assoc.
Qed.

Lemma initialize_twice_witness :
  let d :=
    effectDefinition Sample.getId (Sample.effect "Blinded" "blind.svg") in
  ∃ once,
    initialize Sample.getId Sample.findEffectByName
      Sample.toLowerCase Sample.lessThan
      (Sample.settings "add" ["Blinded"] "unsorted")
      [Sample.entry "dead" "skull.svg"] = Normal once
    ∧ initialize Sample.getId Sample.findEffectByName
      Sample.toLowerCase Sample.lessThan
        (Sample.settings "add" ["Blinded"] "unsorted") once
      = Normal [Sample.entry "dead" "skull.svg"; d; d].
Proof.
  intros d.
  destruct (initialize_twice Sample.getId Sample.findEffectByName
           Sample.toLowerCase Sample.lessThan
              (Sample.settings "add" ["Blinded"] "unsorted")) as [_ Hadd].
  apply (Hadd eq_refl [Sample.entry "dead" "skull.svg"] [d]).
  by vm_compute.
Defined.

(** ** From the catalog to the HUD *)

(** X15: after [initialize] under ["replace"], when no serialised effect
    carries an [id] of its own, every resolved effect whose derived id is
    not a name inherited from [Object.prototype] has an entry in the choice
    mapping of any token under its derived id, and that entry records the
    derived id. *)
Theorem initialized_effects_are_choices (getId : string → string)
    (findEffectByName : string → option EffectLike.t)
    (toLowerCase : string → string) (lessThan : string → string → bool)
    (localize : value → string) (settings : Settings.t)
    (catalog catalog' : list (gmap string value)) (token : Token.t)
    (wrapper : list value → gmap string StatusChoice.t) (args : list value)
    (effect : EffectLike.t)
    (Hmode : Settings.modifyStatusEffects settings = "replace")
    (Hinit :
       initialize getId findEffectByName
           toLowerCase lessThan settings catalog = Normal catalog')
    (Hin : effect ∈ resolved findEffectByName settings)
    (Hnoid : ∀ e, e ∈ resolved findEffectByName settings →
               EffectLike.toObject e !! "id" = None)
    (Hown : getId (EffectLike.name effect) ∉ objectPrototype) :
  ∃ c,
    getStatusEffectChoices localize settings catalog' token wrapper args
      !! getId (EffectLike.name effect) = Some c
    ∧ StatusChoice.id c = VStr (getId (EffectLike.name effect)).
Proof.
  rewrite initialize_replace in Hinit by done.
  apply fetch_perm in Hinit.
  assert (∀ d, d ∈ catalog' →
            ∃ e, d !! "id" = Some (VStr (getId (EffectLike.name e))))
    as Hids.
  { intros d Hd. rewrite Hinit in Hd.
    apply list_elem_of_fmap in Hd as (e & -> & He). exists e.
    by rewrite effectDefinition_lookup, (Hnoid e He). }
  rewrite getStatusEffectChoices_built by (by rewrite Hmode).
  unfold candidates. rewrite foldl_app.
  set (doc := Token.document token).
  set (statuses := actorStatuses (Token.actor token)).
  set (k := getId (EffectLike.name effect)).
  assert (Effect (effectDefinition getId effect) ∈ Effect <$> catalog')
    as Hcand.
  { apply list_elem_of_fmap. eexists. split; [done|].
    rewrite Hinit. apply list_elem_of_fmap. by exists effect. }
  assert (keyOf (Effect (effectDefinition getId effect)) = k) as Hkey.
  { unfold keyOf, field, get_prop_opt. simpl.
    by rewrite effectDefinition_lookup, (Hnoid effect Hin). }
  destruct (foldl_addChoice_is_Some localize doc statuses _ _ Hcand)
    as [c Hc]; [by rewrite Hkey|].
  rewrite Hkey in Hc. exists c.
  split; [by apply foldl_addChoice_keep|].
  apply foldl_addChoice_origin in Hc
    as (_ & before & first & after & Hl & Hfirst & _ & ->).
  assert (first ∈ Effect <$> catalog') as Hf.
  { rewrite Hl. apply elem_of_app. right. by left. }
  apply list_elem_of_fmap in Hf as (d & -> & Hd).
  destruct (Hids d Hd) as [e He].
  unfold keyOf, field, get_prop_opt in Hfirst. simpl in *.
  unfold field, get_prop_opt. simpl. rewrite He in *. simpl in *.
  by rewrite Hfirst.
Qed.

Lemma initialized_effects_are_choices_witness :
  ∃ c,
    getStatusEffectChoices Sample.localize
      (Sample.settings "replace" ["Blinded"; "Ablaze"] "alphabetical")
      [effectDefinition Sample.getId (Sample.effect "Ablaze" "fire.svg");
       effectDefinition Sample.getId (Sample.effect "Blinded" "blind.svg")]
      (Sample.token [] [] None) (λ _, ∅) []
      !! "Convenient Effect: Blinded" = Some c
    ∧ StatusChoice.id c = VStr "Convenient Effect: Blinded".
Proof.
  apply (initialized_effects_are_choices Sample.getId Sample.findEffectByName
           Sample.toLowerCase Sample.lessThan
           Sample.localize
           (Sample.settings "replace" ["Blinded"; "Ablaze"] "alphabetical")
           [] _ (Sample.token [] [] None) (λ _, ∅) []
           (Sample.effect "Blinded" "blind.svg")).
  - reflexivity.
  - by vm_compute.
  - by left.
  - intros e He. simpl in He.
    apply elem_of_cons in He as [->|He]; [done|].
    by apply list_elem_of_singleton in He as ->.
  - not_inherited.
Defined.

(** ** The icon refresher: repetition and the whole path *)


Lemma refreshIcon_idempotent (statuses : gmap string StatusChoice.t)
    (img : Img.t) :
  refreshIcon statuses (refreshIcon statuses img) = refreshIcon statuses img.
Proof.
  unfold refreshIcon. cbn [Img.statusId Img.src Img.classList]. f_equal.
  apply set_eq. intros cls.
  repeat (rewrite elem_of_toggle; case_decide; subst; try done).
Qed.

(** X16: refreshing the icons a second time against the same choice mapping
    changes nothing: the icons come out as the first refresh left them. *)
Theorem refreshStatusIcons_idempotent (tokenHud : TokenHUD.t)
    (refreshed : list Img.t)
    (Hrun : refreshStatusIcons tokenHud = Normal refreshed) :
  refreshStatusIcons
    {| TokenHUD.statusEffects := Some refreshed;
       TokenHUD.choices := TokenHUD.choices tokenHud |}
  = Normal refreshed.
Proof.
  unfold refreshStatusIcons in *. simpl.
  destruct (TokenHUD.statusEffects tokenHud) as [children|]; [|done].
  injection Hrun as <-. f_equal.
  rewrite <-list_fmap_compose. apply list_fmap_ext.
  intros i img _. apply refreshIcon_idempotent.
Qed.

Lemma refreshStatusIcons_idempotent_witness :
  refreshStatusIcons
    {| TokenHUD.statusEffects :=
         Some [refreshIcon {[ "blinded" := Sample.choice "blinded" true true ]}
                 (Sample.img (Some "blinded") "eye.svg" ["effect-control"])];
       TokenHUD.choices :=
         {[ "blinded" := Sample.choice "blinded" true true ]} |}
  = Normal
      [refreshIcon {[ "blinded" := Sample.choice "blinded" true true ]}
         (Sample.img (Some "blinded") "eye.svg" ["effect-control"])].
Proof.
  exact (refreshStatusIcons_idempotent
           {| TokenHUD.statusEffects :=
                Some [Sample.img (Some "blinded") "eye.svg"
                        ["effect-control"]];
              TokenHUD.choices :=
                {[ "blinded" := Sample.choice "blinded" true true ]} |}
           [refreshIcon {[ "blinded" := Sample.choice "blinded" true true ]}
              (Sample.img (Some "blinded") "eye.svg" ["effect-control"])]
           eq_refl).
Defined.



(** ** The choice mapping: the order of the candidates *)

(** X18: the candidates of [getStatusEffectChoices] are the entries of the
    catalog, then the effects of the token document, then its overlay
    effect when it is not empty, in this order; the first candidate of a
    key that is not a name inherited from [Object.prototype] gets the entry
    of that key, every later candidate of the key is dropped, and every
    entry of the mapping is the entry of such a first candidate. *)
Theorem choices_first_of_key_wins (localize : value → string)
    (settings : Settings.t) (catalog : list (gmap string value))
    (token : Token.t) (wrapper : list value → gmap string StatusChoice.t)
    (args : list value)
    (Hmode : Settings.modifyStatusEffects settings ≠ "none") :
  let doc := Token.document token in
  let statuses := actorStatuses (Token.actor token) in
  let result :=
    getStatusEffectChoices localize settings catalog token wrapper args in
  candidates catalog doc
  = ((Effect <$> catalog) ++ (Icon <$> TokenDocument.effects doc)
     ++ match TokenDocument.overlayEffect doc with
        | Some overlay => if String.eqb overlay "" then [] else [Icon overlay]
        | None => []
        end)%list
  ∧ (∀ before first after,
       candidates catalog doc = (before ++ first :: after)%list →
       keyOf first ∉ objectPrototype →
       (∀ e, e ∈ before → keyOf e ≠ keyOf first) →
       result !! keyOf first = Some (choiceOf localize doc statuses first)
       ∧ ∀ duplicate, duplicate ∈ after → keyOf duplicate = keyOf first →
           result !! keyOf duplicate
           = Some (choiceOf localize doc statuses first))
  ∧ (∀ k c, result !! k = Some c →
       (k ∉ objectPrototype)
       ∧ ∃ before first after,
           candidates catalog doc = (before ++ first :: after)%list
           ∧ keyOf first = k
           ∧ (∀ e, e ∈ before → keyOf e ≠ k)
           ∧ c = choiceOf localize doc statuses first).
Proof.
  intros doc statuses result. subst result.
  rewrite getStatusEffectChoices_built by done. fold doc statuses.
  split_and!.
  - unfold candidates, tokenEffects. rewrite fmap_app. f_equal. f_equal.
    destruct (TokenDocument.overlayEffect doc) as [overlay|]; [|done].
    simpl. by destruct (String.eqb overlay "").
  - intros before first after -> Hown Hbefore.
    assert (foldl (addChoice localize doc statuses) ∅
              (before ++ first :: after)%list !! keyOf first
            = Some (choiceOf localize doc statuses first)) as Hfirst
      by by apply foldl_addChoice_first.
    split; [done|]. by intros duplicate _ ->.
  - apply foldl_addChoice_origin.
Qed.

Lemma choices_first_of_key_wins_witness :
  let token := Sample.token [] ["a.png"] (Some "o.png") in
  let result :=
    getStatusEffectChoices Sample.localize
      (Sample.settings "add" [] "unsorted")
      [Sample.entry "dead" "skull.svg"; Sample.entry "dead" "a.png"]
      token (λ _, ∅) [] in
  candidates [Sample.entry "dead" "skull.svg"; Sample.entry "dead" "a.png"]
    (Token.document token)
  = [Effect (Sample.entry "dead" "skull.svg");
     Effect (Sample.entry "dead" "a.png"); Icon "a.png"; Icon "o.png"]
  ∧ result !! "dead"
    = Some {| StatusChoice.id := VStr "dead";
              StatusChoice.title := None;
              StatusChoice.src := VStr "skull.svg";
              StatusChoice.isActive := false;
              StatusChoice.isOverlay := false;
              StatusChoice.cssClass := "" |}
  ∧ result !! "undefined"
    = Some {| StatusChoice.id := VStr "";
              StatusChoice.title := None;
              StatusChoice.src := VStr "a.png";
              StatusChoice.isActive := true;
              StatusChoice.isOverlay := false;
              StatusChoice.cssClass := "active" |}.
Proof.
  intros token result.
  pose proof (choices_first_of_key_wins Sample.localize
                (Sample.settings "add" [] "unsorted")
                [Sample.entry "dead" "skull.svg"; Sample.entry "dead" "a.png"]
                token (λ _, ∅) []) as H.
  destruct H as (Hcandidates & Hfirst & _); [by vm_compute|].
  split_and!.
  - exact Hcandidates.
  - destruct (Hfirst [] (Effect (Sample.entry "dead" "skull.svg"))
                [Effect (Sample.entry "dead" "a.png"); Icon "a.png";
                 Icon "o.png"]) as [Hdead _].
    + reflexivity.
    + not_inherited.
    + by intros e Hin%elem_of_nil.
    + exact Hdead.
  - destruct (Hfirst [Effect (Sample.entry "dead" "skull.svg");
                      Effect (Sample.entry "dead" "a.png")]
                (Icon "a.png") [Icon "o.png"]) as [Hicon _].
    + reflexivity.
    + not_inherited.
    + intros e Hin. repeat (apply elem_of_cons in Hin as [->|Hin]);
        [done | done | by apply elem_of_nil in Hin].
    + exact Hicon.
Defined.
